(** * twist-ease-cube: the cube kinematics and animation engine

    A shallow embedding of [src/components/RubiksCube.tsx]: the move
    grammar of [performMove], the [CubeAnimation] class
    ([createRotationGroup], [update], [finish]) and the move queue of the
    [RubiksCube] component, together with the parts of three.js,
    JavaScript and React that those functions call.

    Conventions.
    - A JavaScript [number] is a rational ([Q]), or an integer ([Z]) for
      [axis], [index] and [direction], which only [performMove] assigns.
      Arithmetic is exact; the two library results whose double is not
      the mathematical value and matters here, [Math.PI] and the cosine
      of a quarter turn, carry their double.
    - A three.js object has an identity, its [id]: three.js numbers every
      [Object3D] from a global counter.  A [WeakMap] keyed by objects is
      keyed by that identity.
    - A method that mutates [this] and [this.group] takes both and returns
      both; [None] is an exception.
    - The component is a state machine over the events that reach it:
      the scene mounting, a call of [performMove], a render, a frame. *)

From Stdlib Require Import String Ascii.
From Stdlib Require Import ZArith QArith Qround Qabs Qminmax.
From Stdlib Require Import List Bool Lia Lqa Permutation.
Import ListNotations.


(** ** JavaScript numbers *)

Module Math.
Local Open Scope Q_scope.

(** [Math.round]: the nearest integer, halves going up. *)
Definition round (x : Q) : Q := inject_Z (Qfloor (x + (1 # 2))).

Definition min (x y : Q) : Q := if Qlt_le_dec y x then y else x.

(** [Math.pow(x, 3)]. *)
Definition pow3 (x : Q) : Q := x * x * x.

(** [Math.PI], the double 0x400921FB54442D18. *)
Definition PI : Q := 884279719003555 # 281474976710656.

(** [Math.cos((Math.PI / 2) * direction)] and
    [Math.sin((Math.PI / 2) * direction)].  For [direction] 1 and -1, the
    only values [performMove] produces, these are the doubles the calls
    return: the cosine is 6.123233995736766e-17, not 0, and the sine is
    [direction].  For the other integers the quarter turn is taken
    modulo 4 with the same constant. *)
Definition cos_quarter : Q := 6123233995736766 # 100000000000000000000000000000000.

Definition cos_quarters (direction : Z) : Q :=
  match (direction mod 4)%Z with
  | 0%Z => 1
  | 2%Z => - (1)
  | _ => cos_quarter
  end.

Definition sin_quarters (direction : Z) : Q :=
  match (direction mod 4)%Z with
  | 1%Z => 1
  | 3%Z => - (1)
  | _ => 0
  end.
End Math.

(** [a === b] on numbers. *)
Definition strict_eq (a b : Q) : bool := Qeq_bool a b.

(** ** three.js *)

Module Vector3.
Local Open Scope Q_scope.

Record t := mk { x : Q; y : Q; z : Q }.

Definition of_Z (a b c : Z) : t := mk (inject_Z a) (inject_Z b) (inject_Z c).

(** [getComponent(index)] throws on an index other than 0, 1, 2. *)
Definition getComponent (v : t) (index : Z) : option Q :=
  match index with
  | 0%Z => Some (x v)
  | 1%Z => Some (y v)
  | 2%Z => Some (z v)
  | _ => None
  end.

Definition multiplyScalar (v : t) (s : Q) : t :=
  mk (x v * s) (y v * s) (z v * s).

Definition sub (v w : t) : t :=
  mk (x v - x w) (y v - y w) (z v - z w).

(** [round()]: [Math.round] on each coordinate. *)
Definition round (v : t) : t :=
  mk (Math.round (x v)) (Math.round (y v)) (Math.round (z v)).
End Vector3.

Module Matrix4.
Local Open Scope Q_scope.

(** The upper-left 3x3 block, by rows.  The fourth row and column of
    every matrix built here are (0, 0, 0, 1). *)
Record t := mk {
  n11 : Q; n12 : Q; n13 : Q;
  n21 : Q; n22 : Q; n23 : Q;
  n31 : Q; n32 : Q; n33 : Q }.

(** [makeRotationAxis(axis, angle)], given [c = Math.cos(angle)] and
    [s = Math.sin(angle)]. *)
Definition makeRotationAxis (axis : Vector3.t) (c s : Q) : t :=
  let t := 1 - c in
  let x := Vector3.x axis in
  let y := Vector3.y axis in
  let z := Vector3.z axis in
  let tx := t * x in
  let ty := t * y in
  mk (tx * x + c) (tx * y - s * z) (tx * z + s * y)
     (tx * y + s * z) (ty * y + c) (ty * z - s * x)
     (tx * z - s * y) (ty * z + s * x) (t * z * z + c).

(** [Vector3.applyMatrix4]; the perspective divisor is
    [1 / (0 * x + 0 * y + 0 * z + 1)]. *)
Definition applyMatrix4 (v : Vector3.t) (m : t) : Vector3.t :=
  let x := Vector3.x v in
  let y := Vector3.y v in
  let z := Vector3.z v in
  let w := 1 / (0 * x + 0 * y + 0 * z + 1) in
  Vector3.mk ((n11 m * x + n12 m * y + n13 m * z + 0) * w)
             ((n21 m * x + n22 m * y + n23 m * z + 0) * w)
             ((n31 m * x + n32 m * y + n33 m * z + 0) * w).
End Matrix4.

Module Euler.
Record t := mk { x : Q; y : Q; z : Q }.
Definition zero : t := mk 0 0 0.
End Euler.

Module Quaternion.
Record t := mk { x : Q; y : Q; z : Q; w : Q }.
Definition identity : t := mk 0 0 0 1.
End Quaternion.

(** A [THREE.Mesh]: one cubie.  [rotation] and [quaternion] are two views
    of one orientation that three.js keeps in step; the quaternion is the
    one stored. *)
Record Mesh := {
  id : nat;
  position : Vector3.t;
  quaternion : Quaternion.t }.

(** [child.rotation.set(0, 0, 0)]: the change callback of [rotation] sets
    the quaternion from the Euler angles, here to the identity. *)
Definition rotation_set_zero (m : Mesh) : Mesh :=
  {| id := id m; position := position m; quaternion := Quaternion.identity |}.

(** A child of a group: a mesh, or a reference to a [THREE.Group]. *)
Inductive Object3D :=
| AMesh (m : Mesh)
| AGroup (ref : nat).

Definition object_id (o : Object3D) : nat :=
  match o with
  | AMesh m => id m
  | AGroup ref => ref
  end.

(** A [THREE.Group]. *)
Record Group := {
  group_id : nat;
  group_position : Vector3.t;
  group_rotation : Euler.t;
  children : list Object3D }.

Definition set_children (g : Group) (cs : list Object3D) : Group :=
  {| group_id := group_id g; group_position := group_position g;
     group_rotation := group_rotation g; children := cs |}.

(** [children.indexOf(object)] followed by [children.splice(index, 1)]. *)
Fixpoint splice_object (ident : nat) (cs : list Object3D) : list Object3D :=
  match cs with
  | [] => []
  | c :: cs' => if Nat.eqb (object_id c) ident then cs' else c :: splice_object ident cs'
  end.

(** [group.remove(object)]. *)
Definition remove (g : Group) (o : Object3D) : Group :=
  set_children g (splice_object (object_id o) (children g)).

(** [group.add(object)] for an object that has no parent: a push. *)
Definition add (g : Group) (o : Object3D) : Group :=
  set_children g (children g ++ [o]).

(** ** WeakMap *)

Module WeakMap.
Definition t (V : Type) := list (nat * V).
Definition empty {V} : t V := [].
Definition set {V} (m : t V) (key : nat) (v : V) : t V := (key, v) :: m.
Fixpoint get {V} (m : t V) (key : nat) : option V :=
  match m with
  | [] => None
  | (k, v) :: m' => if Nat.eqb k key then Some v else get m' key
  end.
End WeakMap.

(** ** [MoveData] and the completion callback *)

Record MoveData := {
  move_axis : Z;
  move_index : Z;
  move_direction : Z }.

(** The arrow function the queue effect passes as [onComplete]: a closure
    over the [newMoveQueue] computed when the animation was created. *)
Record Callback := { newMoveQueue : list MoveData }.

(** ** [class CubeAnimation] *)

Record CubeAnimation := {
  axis : Z;
  index : Z;
  direction : Z;
  onComplete : Callback;
  progress : Q;
  duration : Q;
  rotationGroup : option Group;
  originalPositions : WeakMap.t Vector3.t;
  originalQuaternions : WeakMap.t Quaternion.t }.

Definition set_rotationGroup (this : CubeAnimation) (g : option Group) : CubeAnimation :=
  {| axis := axis this; index := index this; direction := direction this;
     onComplete := onComplete this; progress := progress this;
     duration := duration this; rotationGroup := g;
     originalPositions := originalPositions this;
     originalQuaternions := originalQuaternions this |}.

Definition set_progress (this : CubeAnimation) (p : Q) : CubeAnimation :=
  {| axis := axis this; index := index this; direction := direction this;
     onComplete := onComplete this; progress := p;
     duration := duration this; rotationGroup := rotationGroup this;
     originalPositions := originalPositions this;
     originalQuaternions := originalQuaternions this |}.

Definition set_originals (this : CubeAnimation)
  (ps : WeakMap.t Vector3.t) (qs : WeakMap.t Quaternion.t) : CubeAnimation :=
  {| axis := axis this; index := index this; direction := direction this;
     onComplete := onComplete this; progress := progress this;
     duration := duration this; rotationGroup := rotationGroup this;
     originalPositions := ps;
     originalQuaternions := qs |}.

(** [new THREE.Vector3(axis === 0 ? 1 : 0, axis === 1 ? 1 : 0, axis === 2 ? 1 : 0)]. *)
Definition axisVector (this : CubeAnimation) : Vector3.t :=
  Vector3.mk (if Z.eqb (axis this) 0 then 1 else 0)
             (if Z.eqb (axis this) 1 then 1 else 0)
             (if Z.eqb (axis this) 2 then 1 else 0).

(** [new THREE.Group()], numbered [fresh] by three.js. *)
Definition new_Group (fresh : nat) : Group :=
  {| group_id := fresh; group_position := Vector3.mk 0 0 0;
     group_rotation := Euler.zero; children := [] |}.

(** [Array.prototype.forEach] over the live [this.group.children]: the
    length is read once, then every index below it that is still present
    is visited in turn, whatever the callback did to the array meanwhile.
    [remaining] counts the indices left, [k] is the current one; [None] is an
    exception thrown by the callback. *)
Fixpoint forEach (callback : Object3D -> CubeAnimation * Group -> option (CubeAnimation * Group))
  (remaining k : nat) (st : CubeAnimation * Group) : option (CubeAnimation * Group) :=
  match remaining with
  | O => Some st
  | S remaining' =>
      match nth_error (children (snd st)) k with
      | Some child =>
          match callback child st with
          | Some st' => forEach callback remaining' (S k) st'
          | None => None
          end
      | None => forEach callback remaining' (S k) st
      end
  end.

(** The body of the [forEach] callback of [createRotationGroup]. *)
Definition detach (child : Object3D) (st : CubeAnimation * Group)
  : option (CubeAnimation * Group) :=
  let '(this, group) := st in
  match child with
  | AMesh mesh =>
      let position := position mesh in
      match Vector3.getComponent position (axis this) with
      | None => None
      | Some component =>
          if strict_eq (Math.round component) (inject_Z (index this)) then
            let this := set_originals this
                          (WeakMap.set (originalPositions this) (id mesh) position)
                          (WeakMap.set (originalQuaternions this) (id mesh) (quaternion mesh)) in
            let group := remove group child in
            let centred :=
              {| id := id mesh;
                 position := Vector3.sub position
                               (Vector3.multiplyScalar (axisVector this) (inject_Z (index this)));
                 quaternion := quaternion mesh |} in
            match rotationGroup this with
            | None => None
            | Some pivot =>
                Some (set_rotationGroup this (Some (add pivot (AMesh centred))), group)
            end
          else Some (this, group)
      end
  | AGroup _ => Some (this, group)
  end.

Definition createRotationGroup (fresh : nat) (this : CubeAnimation) (group : Group)
  : option (CubeAnimation * Group) :=
  let this := set_rotationGroup this (Some (new_Group fresh)) in
  match forEach detach (length (children group)) 0 (this, group) with
  | None => None
  | Some (this, group) =>
      match rotationGroup this with
      | None => None
      | Some pivot =>
          let pivot :=
            {| group_id := group_id pivot;
               group_position := Vector3.multiplyScalar (axisVector this) (inject_Z (index this));
               group_rotation := group_rotation pivot;
               children := children pivot |} in
          Some (set_rotationGroup this (Some pivot), add group (AGroup (group_id pivot)))
      end
  end.

(** The fields the constructor assigns before it calls
    [createRotationGroup], with the field initialisers of the class. *)
Definition blank (axis index direction : Z) (onComplete : Callback) : CubeAnimation :=
  {| axis := axis; index := index; direction := direction;
     onComplete := onComplete; progress := 0; duration := 3 # 10;
     rotationGroup := None;
     originalPositions := WeakMap.empty;
     originalQuaternions := WeakMap.empty |}.

(** [new CubeAnimation(group, axis, index, direction, onComplete)]. *)
Definition new_CubeAnimation (fresh : nat) (group : Group)
  (axis index direction : Z) (onComplete : Callback) : option (CubeAnimation * Group) :=
  createRotationGroup fresh (blank axis index direction onComplete) group.

Definition easeInOutCubic (x : Q) : Q :=
  if Qlt_le_dec x (1 # 2) then 4 * x * x * x
  else 1 - Math.pow3 (- (2) * x + 2) / 2.

(** [update(delta)]: the returned boolean and the mutated [this]. *)
Definition update (delta : Q) (this : CubeAnimation) : bool * CubeAnimation :=
  match rotationGroup this with
  | None => (true, this)
  | Some pivot =>
      let progress := Math.min (progress this + delta / duration this) 1 in
      let eased := easeInOutCubic progress in
      let angle := (Math.PI / 2) * eased * inject_Z (direction this) in
      let r := group_rotation pivot in
      let r := if Z.eqb (axis this) 0 then Euler.mk angle (Euler.y r) (Euler.z r) else r in
      let r := if Z.eqb (axis this) 1 then Euler.mk (Euler.x r) angle (Euler.z r) else r in
      let r := if Z.eqb (axis this) 2 then Euler.mk (Euler.x r) (Euler.y r) angle else r in
      let pivot :=
        {| group_id := group_id pivot; group_position := group_position pivot;
           group_rotation := r; children := children pivot |} in
      (Qle_bool 1 progress, set_rotationGroup (set_progress this progress) (Some pivot))
  end.

(** The block of [finish] guarded by [originalPosition && originalQuaternion],
    on the child at the head of the pivot.  Only meshes are recorded in
    the two maps. *)
Definition restore (this : CubeAnimation) (child : Object3D) : Object3D :=
  match WeakMap.get (originalPositions this) (object_id child),
        WeakMap.get (originalQuaternions this) (object_id child), child with
  | Some originalPosition, Some originalQuaternion, AMesh mesh =>
      let rotationMatrix :=
        Matrix4.makeRotationAxis (axisVector this)
          (Math.cos_quarters (direction this)) (Math.sin_quarters (direction this)) in
      let newPosition := Matrix4.applyMatrix4 originalPosition rotationMatrix in
      let newPosition :=
        Vector3.mk (Math.round (Vector3.x newPosition))
                   (Math.round (Vector3.y newPosition))
                   (Math.round (Vector3.z newPosition)) in
      AMesh (rotation_set_zero
               {| id := id mesh; position := newPosition; quaternion := originalQuaternion |})
  | _, _, _ => child
  end.

(** The [while (this.rotationGroup.children.length > 0)] loop of [finish],
    on the pivot and the group; it stops when [fuel] runs out. *)
Fixpoint finish_loop (fuel : nat) (this : CubeAnimation) (pivot group : Group)
  : Group * Group :=
  match children pivot with
  | [] => (pivot, group)
  | child :: _ =>
      match fuel with
      | O => (pivot, group)
      | S fuel' =>
          let child' := restore this child in
          finish_loop fuel' this (remove pivot child) (add group child')
      end
  end.

(** [finish()]: the mutated [this] and [this.group], and the callback it
    invoked, if it invoked one. *)
Definition finish (this : CubeAnimation) (group : Group)
  : CubeAnimation * Group * option Callback :=
  match rotationGroup this with
  | None => (this, group, None)
  | Some pivot =>
      let '(pivot, group) := finish_loop (length (children pivot)) this pivot group in
      let group := remove group (AGroup (group_id pivot)) in
      let this := set_rotationGroup this None in
      let this := set_originals this WeakMap.empty WeakMap.empty in
      (this, group, Some (onComplete this))
  end.

(** ** [RubiksCubeScene]: the cubies and the move grammar *)

(** The three nested [for] loops over -1, 0, 1: the positions of the 27
    [<Cubie>] elements, in the order they are pushed. *)
Definition cubies : list (Z * Z * Z) :=
  flat_map (fun x => flat_map (fun y => map (fun z => (x, y, z)) [-1; 0; 1]%Z)
                       [-1; 0; 1]%Z) [-1; 0; 1]%Z.

(** The meshes mounted for a list of [<Cubie>] elements, numbered from
    [first]; a new mesh has the identity orientation. *)
Fixpoint mount (first : nat) (ps : list (Z * Z * Z)) : list Object3D :=
  match ps with
  | [] => []
  | (x, y, z) :: ps' =>
      AMesh {| id := first; position := Vector3.of_Z x y z;
               quaternion := Quaternion.identity |} :: mount (S first) ps'
  end.

(** The [<group ref={cubeGroup}>] once mounted.  Identities are numbered
    here from 0 for the group and 1 to 27 for the meshes, in the order of
    the [<Cubie>] elements; only their being distinct matters. *)
Definition initial_group : Group :=
  {| group_id := 0; group_position := Vector3.mk 0 0 0;
     group_rotation := Euler.zero; children := mount 1 cubies |}.

(** [{ axis, index, direction }]. *)
Definition moveData (axis index direction : Z) : MoveData :=
  {| move_axis := axis; move_index := index; move_direction := direction |}.

(** The [switch] of [performMove]; [None] is its [default: return]. *)
Definition parse (move : string) : option MoveData :=
  if String.eqb move "U"%string then Some (moveData 1 1 (-1))%Z
  else if String.eqb move "U'"%string then Some (moveData 1 1 1)%Z
  else if String.eqb move "D"%string then Some (moveData 1 (-1) 1)%Z
  else if String.eqb move "D'"%string then Some (moveData 1 (-1) (-1))%Z
  else if String.eqb move "R"%string then Some (moveData 0 1 (-1))%Z
  else if String.eqb move "R'"%string then Some (moveData 0 1 1)%Z
  else if String.eqb move "L"%string then Some (moveData 0 (-1) 1)%Z
  else if String.eqb move "L'"%string then Some (moveData 0 (-1) (-1))%Z
  else if String.eqb move "F"%string then Some (moveData 2 1 (-1))%Z
  else if String.eqb move "F'"%string then Some (moveData 2 1 1)%Z
  else if String.eqb move "B"%string then Some (moveData 2 (-1) 1)%Z
  else if String.eqb move "B'"%string then Some (moveData 2 (-1) (-1))%Z
  else None.

(** ** [RubiksCube]: the component state and the queue effect *)

(** The four [useState] cells, holding the value of the latest [set...]
    call.  A [CubeAnimation] or a group in a cell is a reference. *)
Record State := {
  cubeGroup : option nat;
  currentAnimation : option nat;
  moveQueue : list MoveData;
  isAnimating : bool }.

(** What the program writes about its progress: the effect logs
    'Starting animation:'; [Completed] marks a [finish] that committed. *)
Inductive Entry :=
| Started (animation : nat) (move : MoveData)
| Completed (animation : nat).

(** Everything that lives across events.
    - [object3DId]: the three.js counter for the next object.
    - [group]: the group object holding the cubies.
    - [animations]: every [CubeAnimation] created, by reference.
    - [state]: the [useState] cells.
    - [propAnimation]: the [currentAnimation] prop that the last render
      handed to [RubiksCubeScene], which the frame callback reads.
    - [crashed]: an exception escaped the effect; React then unmounts the
      component and nothing more happens.
    - [trace]: the entries written, latest first. *)
Record World := {
  object3DId : nat;
  group : Group;
  animations : list CubeAnimation;
  state : State;
  propAnimation : option nat;
  crashed : bool;
  trace : list Entry }.

Definition initial_world : World :=
  {| object3DId := 28;
     group := initial_group;
     animations := [];
     state := {| cubeGroup := None; currentAnimation := None;
                 moveQueue := []; isAnimating := false |};
     propAnimation := None;
     crashed := false;
     trace := [] |}.

(** [handleCubeInitialized]: [setMoveQueue(prevQueue => [...prevQueue, moveData])]. *)
Definition handleCubeInitialized (moveData : MoveData) (s : State) : State :=
  {| cubeGroup := cubeGroup s; currentAnimation := currentAnimation s;
     moveQueue := moveQueue s ++ [moveData]; isAnimating := isAnimating s |}.

(** [performMove(move)], through both imperative handles. *)
Definition performMove (move : string) (w : World) : World :=
  match parse move with
  | None => w
  | Some moveData =>
      {| object3DId := object3DId w; group := group w; animations := animations w;
         state := handleCubeInitialized moveData (state w);
         propAnimation := propAnimation w; crashed := crashed w; trace := trace w |}
  end.

(** [handleSceneMount]: the traversal finds the cubie group and stores it. *)
Definition handleSceneMount (w : World) : World :=
  {| object3DId := object3DId w; group := group w; animations := animations w;
     state := {| cubeGroup := Some (group_id (group w));
                 currentAnimation := currentAnimation (state w);
                 moveQueue := moveQueue (state w);
                 isAnimating := isAnimating (state w) |};
     propAnimation := propAnimation w; crashed := crashed w; trace := trace w |}.

(** The arrow function passed as [onComplete], run on the cells. *)
Definition run_callback (cb : Callback) (s : State) : State :=
  {| cubeGroup := cubeGroup s;
     currentAnimation := None;
     moveQueue := newMoveQueue cb;
     isAnimating := match newMoveQueue cb with [] => false | _ => isAnimating s end |}.

(** The effect 'Process the move queue', on the values of the render it
    belongs to. *)
Definition processQueue (w : World) : World :=
  match moveQueue (state w), cubeGroup (state w), currentAnimation (state w) with
  | nextMove :: newQueue, Some _, None =>
      match new_CubeAnimation (object3DId w) (group w)
              (move_axis nextMove) (move_index nextMove) (move_direction nextMove)
              {| newMoveQueue := newQueue |} with
      | None =>
          {| object3DId := object3DId w; group := group w; animations := animations w;
             state := state w; propAnimation := propAnimation w;
             crashed := true; trace := trace w |}
      | Some (animation, group') =>
          {| object3DId := S (object3DId w);
             group := group';
             animations := animations w ++ [animation];
             state := {| cubeGroup := cubeGroup (state w);
                         currentAnimation := Some (length (animations w));
                         moveQueue := moveQueue (state w);
                         isAnimating := true |};
             propAnimation := propAnimation w;
             crashed := false;
             trace := Started (length (animations w)) nextMove :: trace w |}
      end
  | _, _, _ => w
  end.

(** A render of [RubiksCube], with every earlier [set...] call applied:
    the scene receives the current cell as its prop, then the effect
    runs.  (React skips the effect when none of its dependencies changed;
    it then has nothing to do, see [processQueue_idempotent].) *)
Definition render (w : World) : World :=
  processQueue
    {| object3DId := object3DId w; group := group w; animations := animations w;
       state := state w; propAnimation := currentAnimation (state w);
       crashed := crashed w; trace := trace w |}.

(** Assignment to the object behind a reference. *)
Fixpoint store (ref : nat) (a : CubeAnimation) (l : list CubeAnimation) : list CubeAnimation :=
  match l, ref with
  | [], _ => []
  | _ :: l', O => a :: l'
  | b :: l', S ref' => b :: store ref' a l'
  end.

(** The [useFrame] callback of [RubiksCubeScene]; [onAnimationComplete]
    is not passed by [RubiksCube]. *)
Definition frame (delta : Q) (w : World) : World :=
  match propAnimation w with
  | None => w
  | Some ref =>
      match nth_error (animations w) ref with
      | None => w
      | Some this =>
          let '(isComplete, this) := update delta this in
          if isComplete then
            let '(this, group', called) := finish this (group w) in
            match called with
            | Some cb =>
                {| object3DId := object3DId w; group := group';
                   animations := store ref this (animations w);
                   state := run_callback cb (state w);
                   propAnimation := propAnimation w; crashed := crashed w;
                   trace := Completed ref :: trace w |}
            | None =>
                {| object3DId := object3DId w; group := group';
                   animations := store ref this (animations w);
                   state := state w;
                   propAnimation := propAnimation w; crashed := crashed w;
                   trace := trace w |}
            end
          else
            {| object3DId := object3DId w; group := group w;
               animations := store ref this (animations w);
               state := state w;
               propAnimation := propAnimation w; crashed := crashed w;
               trace := trace w |}
      end
  end.

(** What can happen to the mounted component. *)
Inductive Event :=
| SceneMount
| PerformMove (move : string)
| Render
| Frame (delta : Q).

Definition step (w : World) (e : Event) : World :=
  if crashed w then w
  else match e with
       | SceneMount => handleSceneMount w
       | PerformMove move => performMove move w
       | Render => render w
       | Frame delta => frame delta w
       end.

Definition run (w : World) (es : list Event) : World := fold_left step es w.

(** ** Notions used to state the properties *)

(** The twelve move tokens. *)
Definition tokens : list string :=
  ["U"; "U'"; "D"; "D'"; "L"; "L'"; "R"; "R'"; "F"; "F'"; "B"; "B'"]%string.

(** The meshes among the children of a group, in order. *)
Definition meshes (g : Group) : list Mesh :=
  flat_map (fun o => match o with AMesh m => [m] | AGroup _ => [] end) (children g).

(** The cubies a pivot holds, by identity. *)
Definition detached (this : CubeAnimation) : list nat :=
  match rotationGroup this with
  | Some pivot => map object_id (children pivot)
  | None => []
  end.

(** A cubie whose rounded coordinate along [axis] is [slice]. *)
Definition on_slice (axis slice : Z) (m : Mesh) : bool :=
  match Vector3.getComponent (position m) axis with
  | Some component => strict_eq (Math.round component) (inject_Z slice)
  | None => false
  end.

(** The layer a move names: every cubie of the group on that slice. *)
Definition layer (g : Group) (axis slice : Z) : list nat :=
  map id (filter (on_slice axis slice) (meshes g)).

(** The algebraic quarter turn about a coordinate axis, on integer
    points: the rotation by [direction] times 90 degrees. *)
Definition quarter_turn (axis direction : Z) (p : Z * Z * Z) : Z * Z * Z :=
  let '(x, y, z) := p in
  match axis with
  | 0 => (x, - direction * z, direction * y)
  | 1 => (direction * z, y, - direction * x)
  | 2 => (- direction * y, direction * x, z)
  | _ => p
  end%Z.

(** The rotation matrix of a unit quaternion. *)
Definition orientation (q : Quaternion.t) : Matrix4.t :=
  let x := Quaternion.x q in
  let y := Quaternion.y q in
  let z := Quaternion.z q in
  let w := Quaternion.w q in
  Matrix4.mk (1 - 2 * (y * y + z * z)) (2 * (x * y - w * z)) (2 * (x * z + w * y))
             (2 * (x * y + w * z)) (1 - 2 * (x * x + z * z)) (2 * (y * z - w * x))
             (2 * (x * z - w * y)) (2 * (y * z + w * x)) (1 - 2 * (x * x + y * y)).

(** The exact quarter-turn matrix: cosine 0, sine [direction]. *)
Definition quarter_turn_matrix (axis direction : Z) : Matrix4.t :=
  Matrix4.makeRotationAxis
    (Vector3.mk (if Z.eqb axis 0 then 1 else 0)
                (if Z.eqb axis 1 then 1 else 0)
                (if Z.eqb axis 2 then 1 else 0))
    0 (inject_Z direction).

(** The product [a * b] of two rotation matrices: [b] first, then [a]. *)
Definition compose (a b : Matrix4.t) : Matrix4.t :=
  let row r1 r2 r3 c1 c2 c3 := r1 * c1 + r2 * c2 + r3 * c3 in
  Matrix4.mk
    (row (Matrix4.n11 a) (Matrix4.n12 a) (Matrix4.n13 a) (Matrix4.n11 b) (Matrix4.n21 b) (Matrix4.n31 b))
    (row (Matrix4.n11 a) (Matrix4.n12 a) (Matrix4.n13 a) (Matrix4.n12 b) (Matrix4.n22 b) (Matrix4.n32 b))
    (row (Matrix4.n11 a) (Matrix4.n12 a) (Matrix4.n13 a) (Matrix4.n13 b) (Matrix4.n23 b) (Matrix4.n33 b))
    (row (Matrix4.n21 a) (Matrix4.n22 a) (Matrix4.n23 a) (Matrix4.n11 b) (Matrix4.n21 b) (Matrix4.n31 b))
    (row (Matrix4.n21 a) (Matrix4.n22 a) (Matrix4.n23 a) (Matrix4.n12 b) (Matrix4.n22 b) (Matrix4.n32 b))
    (row (Matrix4.n21 a) (Matrix4.n22 a) (Matrix4.n23 a) (Matrix4.n13 b) (Matrix4.n23 b) (Matrix4.n33 b))
    (row (Matrix4.n31 a) (Matrix4.n32 a) (Matrix4.n33 a) (Matrix4.n11 b) (Matrix4.n21 b) (Matrix4.n31 b))
    (row (Matrix4.n31 a) (Matrix4.n32 a) (Matrix4.n33 a) (Matrix4.n12 b) (Matrix4.n22 b) (Matrix4.n32 b))
    (row (Matrix4.n31 a) (Matrix4.n32 a) (Matrix4.n33 a) (Matrix4.n13 b) (Matrix4.n23 b) (Matrix4.n33 b)).

Definition same_rotation (a b : Matrix4.t) : bool :=
  Qeq_bool (Matrix4.n11 a) (Matrix4.n11 b) && Qeq_bool (Matrix4.n12 a) (Matrix4.n12 b)
  && Qeq_bool (Matrix4.n13 a) (Matrix4.n13 b) && Qeq_bool (Matrix4.n21 a) (Matrix4.n21 b)
  && Qeq_bool (Matrix4.n22 a) (Matrix4.n22 b) && Qeq_bool (Matrix4.n23 a) (Matrix4.n23 b)
  && Qeq_bool (Matrix4.n31 a) (Matrix4.n31 b) && Qeq_bool (Matrix4.n32 a) (Matrix4.n32 b)
  && Qeq_bool (Matrix4.n33 a) (Matrix4.n33 b).

(** The mesh with a given identity among the children of a group. *)
Definition find_mesh (g : Group) (ident : nat) : option Mesh :=
  find (fun m => Nat.eqb (id m) ident) (meshes g).

(** The pose of every cubie, by identity: what the grid state is, apart
    from the order of the children. *)
Definition pose (g : Group) (ident : nat) : option (Vector3.t * Quaternion.t) :=
  match find_mesh g ident with
  | Some m => Some (position m, quaternion m)
  | None => None
  end.

(** An animation whose pivot exists: [Running] or [Committing]. *)
Definition in_flight (a : CubeAnimation) : bool :=
  match rotationGroup a with
  | Some _ => true
  | None => false
  end.

(** A trace, latest entry first, in which starts and completions
    alternate and every completion is that of the animation started just
    before it. *)
Fixpoint alternating (tr : list Entry) : Prop :=
  match tr with
  | [] => True
  | Started _ _ :: tr' =>
      match tr' with
      | Started _ _ :: _ => False
      | _ => alternating tr'
      end
  | Completed i :: tr' =>
      match tr' with
      | Started j _ :: _ => i = j /\ alternating tr'
      | _ => False
      end
  end.

(** The moves started, oldest first. *)
Definition started (tr : list Entry) : list MoveData :=
  rev (flat_map (fun e => match e with Started _ m => [m] | Completed _ => [] end) tr).

(** [update] on each frame delta in turn. *)
Definition updates (deltas : list Q) (this : CubeAnimation) : CubeAnimation :=
  fold_left (fun a delta => snd (update delta a)) deltas this.

(** The group after [finish]. *)
Definition committed (this : CubeAnimation) (g : Group) : Group :=
  snd (fst (finish this g)).

(** *** The scan of [createRotationGroup], in closed form *)

(** What visiting the live array does to a list of children still to be
    visited: a cubie on the slice is detached, and the child after it,
    which the splice moves into the slot just visited, is passed over
    without being looked at.  The result is the children kept, in order,
    and the cubies detached, in order. *)
Fixpoint scan (axis slice : Z) (cs : list Object3D) : list Object3D * list Mesh :=
  match cs with
  | [] => ([], [])
  | AMesh m :: rest =>
      if on_slice axis slice m then
        match rest with
        | [] => ([], [m])
        | next :: rest' =>
            let '(kept, det) := scan axis slice rest' in (next :: kept, m :: det)
        end
      else
        let '(kept, det) := scan axis slice rest in (AMesh m :: kept, det)
  | AGroup ref :: rest =>
      let '(kept, det) := scan axis slice rest in (AGroup ref :: kept, det)
  end.

(** A detached cubie as it sits in the pivot: its position is relative to
    the pivot. *)
Definition centred (this : CubeAnimation) (m : Mesh) : Mesh :=
  {| id := id m;
     position := Vector3.sub (position m)
                   (Vector3.multiplyScalar (axisVector this) (inject_Z (index this)));
     quaternion := quaternion m |}.

(** The session after its scan detached the cubies [det], in that order. *)
Definition scanned (this : CubeAnimation) (pivot : Group) (det : list Mesh) : CubeAnimation :=
  {| axis := axis this; index := index this; direction := direction this;
     onComplete := onComplete this; progress := progress this;
     duration := duration this;
     rotationGroup :=
       Some (set_children pivot (children pivot ++ map (fun m => AMesh (centred this m)) det));
     originalPositions :=
       fold_left (fun ps m => WeakMap.set ps (id m) (position m)) det (originalPositions this);
     originalQuaternions :=
       fold_left (fun qs m => WeakMap.set qs (id m) (quaternion m)) det (originalQuaternions this) |}.

(** The position [restore] gives a cubie recorded at [p]: [p] turned by
    the rotation matrix in double precision, each coordinate rounded. *)
Definition snapped (this : CubeAnimation) (p : Vector3.t) : Vector3.t :=
  let rotated :=
    Matrix4.applyMatrix4 p
      (Matrix4.makeRotationAxis (axisVector this)
         (Math.cos_quarters (direction this)) (Math.sin_quarters (direction this))) in
  Vector3.mk (Math.round (Vector3.x rotated)) (Math.round (Vector3.y rotated))
             (Math.round (Vector3.z rotated)).

(** A recorded cubie as [finish] hands it back to the group. *)
Definition turned (this : CubeAnimation) (m : Mesh) : Mesh :=
  {| id := id m; position := snapped this (position m);
     quaternion := Quaternion.identity |}.

(** Two sessions that differ at most in [progress] and in the rotation
    and position of the pivot. *)
Definition same_commit (a b : CubeAnimation) : Prop :=
  axis a = axis b /\ index a = index b /\ direction a = direction b
  /\ onComplete a = onComplete b
  /\ originalPositions a = originalPositions b
  /\ originalQuaternions a = originalQuaternions b
  /\ match rotationGroup a, rotationGroup b with
     | Some p, Some q => group_id p = group_id q /\ children p = children q
     | None, None => True
     | _, _ => False
     end.

(** A group whose children are distinct objects, none of them numbered
    [fresh] or later. *)
Definition well_formed (fresh : nat) (g : Group) : Prop :=
  NoDup (map object_id (children g))
  /\ forall o, In o (children g) -> (object_id o < fresh)%nat.

(** A cubie at an integer point whose coordinates are at most 2^20 in size. *)
Definition integral (m : Mesh) (x y z : Z) : Prop :=
  position m = Vector3.of_Z x y z
  /\ (Z.abs x <= 1048576 /\ Z.abs y <= 1048576 /\ Z.abs z <= 1048576)%Z.

(** *** The solved cube and its first moves *)

(** The callback of a session started on a queue holding one move. *)
Definition last_move : Callback := {| newMoveQueue := [] |}.

(** The session and the group after [new CubeAnimation] for a move on
    the solved cube; the blank session and the group itself if the
    constructor threw. *)
Definition begun (m : MoveData) : CubeAnimation * Group :=
  match new_CubeAnimation 28 initial_group
          (move_axis m) (move_index m) (move_direction m) last_move with
  | Some r => r
  | None => (blank (move_axis m) (move_index m) (move_direction m) last_move, initial_group)
  end.

(** The claim of the specification about a restored orientation: it is
    the recorded orientation followed by the exact quarter turn. *)
Definition orientation_composed (axis direction : Z) (before after : Quaternion.t) : bool :=
  same_rotation (orientation after)
    (compose (quarter_turn_matrix axis direction) (orientation before)).

(** The claim of the specification about layer extraction, in its
    weakest reading: on slice 0, or when no cubie or more than nine are
    on the slice, either the constructor throws or, once the move is
    over, every cubie has the pose it had before. *)
Definition extraction_guarded (fresh : nat) (g : Group) (axis slice direction : Z)
  (cb : Callback) : Prop :=
  (slice = 0%Z \/ length (layer g axis slice) = 0%nat
   \/ (9 < length (layer g axis slice))%nat) ->
  match new_CubeAnimation fresh g axis slice direction cb with
  | None => True
  | Some (this, g1) => forall ident, pose (committed this g1) ident = pose g ident
  end.

(** The events of a run in which the component is mounted, the moves are
    requested together, and each is then rendered and animated by one
    frame of the whole duration. *)
Definition play_one : list Event := [Render; Render; Frame (3 # 10)].

Definition play (moves : list string) : list Event :=
  SceneMount :: map PerformMove moves ++ flat_map (fun _ => play_one) moves.

(** An event other than a call of [performMove]. *)
Definition passive (e : Event) : bool :=
  match e with
  | PerformMove _ => false
  | _ => true
  end.

(** A world at rest with nothing left to do. *)
Definition quiescent (w : World) : Prop :=
  moveQueue (state w) = [] /\ currentAnimation (state w) = None
  /\ forall a, In a (animations w) -> rotationGroup a = None.

(** The invariant of the queue effect and the frame callback: the trace
    alternates, an animation in flight is the one in the
    [currentAnimation] cell and the one whose start is the latest entry,
    and a start that is the latest entry is that of an animation in
    flight. *)
Definition orderly (w : World) : Prop :=
  alternating (trace w)
  /\ (forall i a, nth_error (animations w) i = Some a -> in_flight a = true ->
                  currentAnimation (state w) = Some i
                  /\ exists m tr, trace w = Started i m :: tr)
  /\ (forall i m tr, trace w = Started i m :: tr ->
                     exists a, nth_error (animations w) i = Some a /\ in_flight a = true).

(** *** The worlds the component can reach *)

(** A cubie on the grid: at an integer point with coordinates among -1,
    0, 1, with the identity orientation. *)
Definition on_grid (o : Object3D) : Prop :=
  exists (m : Mesh) (x y z : Z),
    o = AMesh m
    /\ position m = Vector3.of_Z x y z
    /\ (-1 <= x <= 1 /\ -1 <= y <= 1 /\ -1 <= z <= 1)%Z
    /\ quaternion m = Quaternion.identity.

(** A group at rest: 27 distinct cubies on the grid and nothing else. *)
Definition grid (fresh : nat) (g : Group) : Prop :=
  well_formed fresh g /\ Forall on_grid (children g) /\ length (children g) = 27%nat.

(** A move as [performMove] builds them. *)
Definition valid_move (m : MoveData) : Prop :=
  (0 <= move_axis m <= 2)%Z
  /\ (move_index m = 1 \/ move_index m = -1)%Z
  /\ (move_direction m = 1 \/ move_direction m = -1)%Z.

(** The invariant of the whole component.  No exception has escaped; the
    queue and the queues captured by the callbacks hold moves built by
    [performMove]; an animation in flight is the one in the
    [currentAnimation] cell.  When that cell is empty the group is a grid
    at rest.  When it holds a session, the session is in flight and is,
    up to [update], the one the constructor built for a move of
    [performMove] on a grid at rest, and the group is the one the
    constructor left. *)
Definition sound (w : World) : Prop :=
  crashed w = false
  /\ Forall valid_move (moveQueue (state w))
  /\ (forall a, In a (animations w) -> Forall valid_move (newMoveQueue (onComplete a)))
  /\ (forall j b, nth_error (animations w) j = Some b -> in_flight b = true ->
                  currentAnimation (state w) = Some j)
  /\ match currentAnimation (state w) with
     | None => grid (object3DId w) (group w)
     | Some i =>
         exists (a this : CubeAnimation) (g0 : Group) (fresh : nat) (mv : MoveData)
                (cb : Callback),
           nth_error (animations w) i = Some a
           /\ object3DId w = S fresh
           /\ grid fresh g0
           /\ valid_move mv
           /\ new_CubeAnimation fresh g0 (move_axis mv) (move_index mv)
                (move_direction mv) cb = Some (this, group w)
           /\ same_commit this a
     end.

(** * Proofs *)

(** * Groups and their children *)

Lemma set_children_same (g : Group) : set_children g (children g) = g.
Proof. destruct g; reflexivity. Qed.

Lemma splice_object_middle (c : Object3D) (pre suf : list Object3D) :
  ~ In (object_id c) (map object_id pre) ->
  splice_object (object_id c) (pre ++ c :: suf) = pre ++ suf.
Proof.
  induction pre as [|p pre IH]; simpl; intros H.
  - now rewrite Nat.eqb_refl.
  - destruct (Nat.eqb_spec (object_id p) (object_id c)) as [E|_]; [tauto|].
    f_equal. apply IH. tauto.
Qed.

Lemma NoDup_ids_middle (c : Object3D) (pre suf : list Object3D) :
  NoDup (map object_id (pre ++ c :: suf)) ->
  ~ In (object_id c) (map object_id pre) /\ NoDup (map object_id (pre ++ suf)).
Proof.
  rewrite !map_app. simpl. intros H. split.
  - apply NoDup_remove_2 in H. rewrite in_app_iff in H. tauto.
  - now apply NoDup_remove_1 in H.
Qed.

(** * The scan of [createRotationGroup] *)

Lemma forEach_past_end (remaining k : nat) (this : CubeAnimation) (g : Group) :
  (length (children g) <= k)%nat ->
  forEach detach remaining k (this, g) = Some (this, g).
Proof.
  revert k. induction remaining as [|remaining IH]; intros k H; simpl; [reflexivity|].
  destruct (nth_error (children g) k) eqn:E.
  - apply nth_error_None in H. congruence.
  - apply IH. lia.
Qed.

Lemma getComponent_valid (v : Vector3.t) (a : Z) :
  (0 <= a <= 2)%Z -> exists c, Vector3.getComponent v a = Some c.
Proof.
  intros H. assert (a = 0 \/ a = 1 \/ a = 2)%Z as [-> | [-> | ->]] by lia;
    simpl; eauto.
Qed.

Lemma detach_off_slice (this : CubeAnimation) (g : Group) (m : Mesh) :
  (0 <= axis this <= 2)%Z ->
  on_slice (axis this) (index this) m = false ->
  detach (AMesh m) (this, g) = Some (this, g).
Proof.
  intros Ha H. unfold detach, on_slice in *.
  destruct (@getComponent_valid (position m) _ Ha) as [c E].
  rewrite E in *. now rewrite H.
Qed.

Lemma detach_on_slice (this : CubeAnimation) (pivot g : Group) (m : Mesh) :
  rotationGroup this = Some pivot ->
  on_slice (axis this) (index this) m = true ->
  detach (AMesh m) (this, g)
  = Some (scanned this pivot [m], remove g (AMesh m)).
Proof.
  intros Hp H. unfold detach, on_slice in *.
  destruct (Vector3.getComponent (position m) (axis this)) as [c|]; [|discriminate].
  rewrite H. simpl. rewrite Hp. reflexivity.
Qed.

Lemma scanned_nil (this : CubeAnimation) (pivot : Group) :
  rotationGroup this = Some pivot -> scanned this pivot [] = this.
Proof.
  intros H. destruct this; simpl in *. subst. unfold scanned; simpl.
  rewrite app_nil_r, set_children_same. reflexivity.
Qed.

Lemma scanned_cons (this : CubeAnimation) (pivot : Group) (m : Mesh) (det : list Mesh) :
  scanned (scanned this pivot [m])
          (set_children pivot (children pivot ++ [AMesh (centred this m)])) det
  = scanned this pivot (m :: det).
Proof.
  unfold scanned; simpl. rewrite <- app_assoc. reflexivity.
Qed.

Lemma forEach_detach_scan (remaining : nat) :
  forall (pre suf : list Object3D) (this : CubeAnimation) (pivot g : Group),
    (0 <= axis this <= 2)%Z ->
    rotationGroup this = Some pivot ->
    children g = pre ++ suf ->
    (length suf <= remaining)%nat ->
    NoDup (map object_id (pre ++ suf)) ->
    forEach detach remaining (length pre) (this, g)
    = Some (scanned this pivot (snd (scan (axis this) (index this) suf)),
            set_children g (pre ++ fst (scan (axis this) (index this) suf))).
Proof.
  induction remaining as [|remaining IH]; intros pre suf this pivot g Ha Hp Hg Hlen Hnd.
  - destruct suf; [|simpl in Hlen; lia]. simpl.
    rewrite scanned_nil by assumption. rewrite <- Hg, set_children_same. reflexivity.
  - cbn [forEach snd]. rewrite Hg. destruct suf as [|c rest].
    + rewrite (proj2 (nth_error_None _ _)) by (rewrite app_nil_r; lia).
      rewrite forEach_past_end by (rewrite Hg, app_nil_r; lia).
      simpl. rewrite scanned_nil by assumption.
      rewrite <- Hg, set_children_same. reflexivity.
    + rewrite nth_error_app2 by lia. rewrite Nat.sub_diag. cbn [nth_error].
      assert (Hstep : forall kept det,
                 scan (axis this) (index this) rest = (kept, det) ->
                 forEach detach remaining (S (length pre)) (this, g)
                 = Some (scanned this pivot det, set_children g (pre ++ c :: kept))).
      { intros kept det E.
        replace (S (length pre)) with (length (pre ++ [c])) by (rewrite length_app; simpl; lia).
        rewrite (IH (pre ++ [c]) rest this pivot g); try assumption.
        - rewrite E. simpl. now rewrite <- app_assoc.
        - now rewrite <- app_assoc.
        - simpl in Hlen; lia.
        - now rewrite <- app_assoc. }
      destruct c as [m|ref].
      * destruct (on_slice (axis this) (index this) m) eqn:Eon.
        -- rewrite (@detach_on_slice this pivot g m Hp Eon).
           destruct (@NoDup_ids_middle _ _ _ Hnd) as [Hnotin Hnd'].
           assert (Hg1 : children (remove g (AMesh m)) = pre ++ rest).
           { unfold remove. simpl. rewrite Hg.
             exact (@splice_object_middle (AMesh m) pre rest Hnotin). }
           simpl scan. rewrite Eon.
           destruct rest as [|next rest'].
           ++ rewrite forEach_past_end by (rewrite Hg1, app_nil_r; lia).
              cbn [scan fst snd]. f_equal. f_equal. unfold remove.
              rewrite Hg. rewrite (@splice_object_middle (AMesh m) pre [] Hnotin).
              reflexivity.
           ++ replace (S (length pre)) with (length (pre ++ [next]))
                by (rewrite length_app; simpl; lia).
              rewrite (IH (pre ++ [next]) rest' (scanned this pivot [m])
                         (set_children pivot (children pivot ++ [AMesh (centred this m)]))
                         (remove g (AMesh m))).
              ** simpl axis. simpl index.
                 destruct (scan (axis this) (index this) rest') as [kept det].
                 simpl. rewrite scanned_cons. f_equal. f_equal.
                 unfold remove, set_children. simpl. now rewrite <- app_assoc.
              ** exact Ha.
              ** reflexivity.
              ** rewrite Hg1. now rewrite <- app_assoc.
              ** simpl in Hlen. lia.
              ** rewrite <- app_assoc. exact Hnd'.
        -- rewrite (@detach_off_slice this g m Ha Eon).
           simpl scan. rewrite Eon.
           destruct (scan (axis this) (index this) rest) as [kept det] eqn:E.
           simpl. apply Hstep. reflexivity.
      * cbn [detach]. simpl scan.
        destruct (scan (axis this) (index this) rest) as [kept det] eqn:E.
        simpl. apply Hstep. reflexivity.
Qed.

(** * Rounding the rotated position *)

Lemma round_near (n : Z) (q : Q) :
  inject_Z n - (1 # 2) <= q -> q < inject_Z n + (1 # 2) ->
  Math.round q = inject_Z n.
Proof.
  intros Hlo Hhi. unfold Math.round. f_equal.
  apply Z.le_antisymm.
  - apply Z.lt_succ_r. rewrite Zlt_Qlt.
    apply Qle_lt_trans with (q + (1 # 2)).
    + apply Qfloor_le.
    + unfold Z.succ. rewrite inject_Z_plus. change (inject_Z 1) with 1. lra.
  - rewrite <- (Qfloor_Z n). apply Qfloor_resp_le. lra.
Qed.

Lemma inject_Z_bounds (a : Z) :
  (Z.abs a <= 1048576)%Z ->
  - (1048576 # 1) <= inject_Z a /\ inject_Z a <= 1048576 # 1.
Proof.
  intros H. unfold Qle; simpl. lia.
Qed.

Lemma applyMatrix4_x (v : Vector3.t) (m : Matrix4.t) :
  Vector3.x (Matrix4.applyMatrix4 v m)
  == Matrix4.n11 m * Vector3.x v + Matrix4.n12 m * Vector3.y v + Matrix4.n13 m * Vector3.z v.
Proof. unfold Matrix4.applyMatrix4; simpl. field. Qed.

Lemma applyMatrix4_y (v : Vector3.t) (m : Matrix4.t) :
  Vector3.y (Matrix4.applyMatrix4 v m)
  == Matrix4.n21 m * Vector3.x v + Matrix4.n22 m * Vector3.y v + Matrix4.n23 m * Vector3.z v.
Proof. unfold Matrix4.applyMatrix4; simpl. field. Qed.

Lemma applyMatrix4_z (v : Vector3.t) (m : Matrix4.t) :
  Vector3.z (Matrix4.applyMatrix4 v m)
  == Matrix4.n31 m * Vector3.x v + Matrix4.n32 m * Vector3.y v + Matrix4.n33 m * Vector3.z v.
Proof. unfold Matrix4.applyMatrix4; simpl. field. Qed.

Lemma snapped_quarter_turn (this : CubeAnimation) (x y z : Z) :
  (0 <= axis this <= 2)%Z ->
  (direction this = 1 \/ direction this = -1)%Z ->
  (Z.abs x <= 1048576 /\ Z.abs y <= 1048576 /\ Z.abs z <= 1048576)%Z ->
  snapped this (Vector3.of_Z x y z)
  = (let '(x', y', z') := quarter_turn (axis this) (direction this) (x, y, z) in
     Vector3.of_Z x' y' z').
Proof.
  intros Ha Hd (Hx & Hy & Hz).
  apply inject_Z_bounds in Hx, Hy, Hz.
  unfold snapped, axisVector.
  assert (axis this = 0 \/ axis this = 1 \/ axis this = 2)%Z as [E | [E | E]] by lia;
    rewrite E; destruct Hd as [D | D]; rewrite D;
    cbn [quarter_turn Z.eqb Pos.eqb]; unfold Vector3.of_Z; f_equal;
    apply round_near;
    rewrite ?applyMatrix4_x, ?applyMatrix4_y, ?applyMatrix4_z;
    rewrite ?inject_Z_mult, ?inject_Z_opp;
    change (Math.cos_quarters 1) with Math.cos_quarter;
    change (Math.cos_quarters (-1)) with Math.cos_quarter;
    change (Math.sin_quarters 1) with 1;
    change (Math.sin_quarters (-1)) with (- (1));
    change (inject_Z 1) with 1;
    change (inject_Z (-1)) with (- (1));
    unfold Math.cos_quarter;
    cbn [Matrix4.makeRotationAxis Matrix4.n11 Matrix4.n12 Matrix4.n13
         Matrix4.n21 Matrix4.n22 Matrix4.n23 Matrix4.n31 Matrix4.n32 Matrix4.n33
         Vector3.x Vector3.y Vector3.z];
    lra.
Qed.

(** * [finish] *)

Lemma finish_loop_spec (this : CubeAnimation) (fuel : nat) :
  forall pivot g : Group,
    (length (children pivot) <= fuel)%nat ->
    finish_loop fuel this pivot g
    = (set_children pivot [],
       set_children g (children g ++ map (restore this) (children pivot))).
Proof.
  induction fuel as [|fuel IH]; intros pivot g H.
  - destruct pivot as [i p r cs]. simpl in *. destruct cs; [|simpl in H; lia].
    simpl. rewrite app_nil_r. destruct g; reflexivity.
  - destruct pivot as [i p r cs]. simpl in *. destruct cs as [|c cs].
    + simpl. rewrite app_nil_r. destruct g; reflexivity.
    + rewrite IH.
      * unfold remove, add, set_children. simpl.
        rewrite Nat.eqb_refl. rewrite <- app_assoc. reflexivity.
      * unfold remove. simpl. rewrite Nat.eqb_refl. simpl in H. lia.
Qed.

Lemma finish_in_flight (this : CubeAnimation) (pivot g : Group) :
  rotationGroup this = Some pivot ->
  finish this g
  = (set_originals (set_rotationGroup this None) WeakMap.empty WeakMap.empty,
     remove (set_children g (children g ++ map (restore this) (children pivot)))
            (AGroup (group_id pivot)),
     Some (onComplete this)).
Proof.
  intros H. unfold finish. rewrite H.
  rewrite finish_loop_spec by lia. reflexivity.
Qed.

Lemma same_commit_refl (a : CubeAnimation) : same_commit a a.
Proof. unfold same_commit. destruct (rotationGroup a); tauto. Qed.

Lemma same_commit_trans (a b c : CubeAnimation) :
  same_commit a b -> same_commit b c -> same_commit a c.
Proof.
  unfold same_commit. intros (?&?&?&?&?&?&Hab) (?&?&?&?&?&?&Hbc).
  repeat split; try congruence.
  destruct (rotationGroup a), (rotationGroup b), (rotationGroup c);
    try tauto. destruct Hab, Hbc. split; congruence.
Qed.

Lemma update_same_commit (delta : Q) (this : CubeAnimation) :
  same_commit this (snd (update delta this)).
Proof.
  unfold update, same_commit.
  destruct (rotationGroup this) as [pivot|] eqn:E; simpl; rewrite ?E; tauto.
Qed.

Lemma updates_same_commit (deltas : list Q) (this : CubeAnimation) :
  same_commit this (updates deltas this).
Proof.
  unfold updates. revert this.
  induction deltas as [|d ds IH]; intros this; simpl.
  - apply same_commit_refl.
  - eapply same_commit_trans; [apply (update_same_commit d this)|apply IH].
Qed.

Lemma restore_same_commit (a b : CubeAnimation) (c : Object3D) :
  same_commit a b -> restore a c = restore b c.
Proof.
  intros (Ha&_&Hd&_&Hp&Hq&_). unfold restore, axisVector.
  now rewrite Ha, Hd, Hp, Hq.
Qed.

Lemma committed_same_commit (a b : CubeAnimation) (g : Group) :
  same_commit a b ->
  committed a g = committed b g /\ snd (finish a g) = snd (finish b g).
Proof.
  intros H. pose proof H as (_&_&_&Hc&_&_&Hr). unfold committed.
  destruct (rotationGroup a) as [p|] eqn:Ea, (rotationGroup b) as [q|] eqn:Eb;
    try tauto.
  - rewrite (finish_in_flight a p g Ea), (finish_in_flight b q g Eb). simpl.
    destruct Hr as [Hid Hcs]. rewrite Hid, Hcs, Hc.
    split; [|reflexivity]. f_equal. f_equal. f_equal.
    apply map_ext. intros c. now apply restore_same_commit.
  - unfold finish. rewrite Ea, Eb. simpl. tauto.
Qed.

(** * What the scan keeps and what it detaches *)

Section Scan.

Variables axis slice : Z.

Lemma scan_facts (n : nat) :
  forall cs : list Object3D,
    (length cs <= n)%nat ->
    Permutation cs (fst (scan axis slice cs) ++ map AMesh (snd (scan axis slice cs)))
    /\ Forall (fun m => on_slice axis slice m = true) (snd (scan axis slice cs)).
Proof.
  induction n as [|n IH]; intros cs Hlen.
  - destruct cs; [|simpl in Hlen; lia]. simpl. split; constructor.
  - destruct cs as [|c rest]; [simpl; split; constructor|].
    assert (Hrest : (length rest <= n)%nat) by (simpl in Hlen; lia).
    destruct c as [m|ref]; cbn [scan].
    + destruct (on_slice axis slice m) eqn:E.
      * destruct rest as [|next rest'].
        -- simpl. split; [apply Permutation_refl|]. repeat constructor. exact E.
        -- assert (Hrest' : (length rest' <= n)%nat) by (simpl in Hrest; lia).
           destruct (IH rest' Hrest') as [Hp Hf].
           destruct (scan axis slice rest') as [kept det]. simpl in *. split.
           ++ apply Permutation_trans with (AMesh m :: next :: kept ++ map AMesh det).
              ** repeat constructor. exact Hp.
              ** apply Permutation_trans with (next :: AMesh m :: kept ++ map AMesh det).
                 --- apply perm_swap.
                 --- constructor. apply Permutation_middle.
           ++ constructor; assumption.
      * destruct (IH rest Hrest) as [Hp Hf].
        destruct (scan axis slice rest) as [kept det]. simpl in *.
        split; [constructor; exact Hp | exact Hf].
    + destruct (IH rest Hrest) as [Hp Hf].
      destruct (scan axis slice rest) as [kept det]. simpl in *.
      split; [constructor; exact Hp | exact Hf].
Qed.

Lemma scan_permutation (cs : list Object3D) :
  Permutation cs (fst (scan axis slice cs) ++ map AMesh (snd (scan axis slice cs))).
Proof. exact (proj1 (scan_facts (length cs) cs (Nat.le_refl _))). Qed.

Lemma scan_on_slice (cs : list Object3D) :
  Forall (fun m => on_slice axis slice m = true) (snd (scan axis slice cs)).
Proof. exact (proj2 (scan_facts (length cs) cs (Nat.le_refl _))). Qed.

Lemma scan_nothing (cs : list Object3D) :
  (forall m, In (AMesh m) cs -> on_slice axis slice m = false) ->
  scan axis slice cs = (cs, []).
Proof.
  induction cs as [|c cs IH]; intros H; [reflexivity|].
  assert (Hcs : scan axis slice cs = (cs, [])).
  { apply IH. intros m Hm. apply H. now right. }
  destruct c as [m|ref]; cbn [scan].
  - rewrite (H m (or_introl eq_refl)). now rewrite Hcs.
  - now rewrite Hcs.
Qed.

Lemma scan_ids (cs : list Object3D) :
  Permutation (map object_id cs)
    (map object_id (fst (scan axis slice cs)) ++ map id (snd (scan axis slice cs))).
Proof.
  pose proof (Permutation_map object_id (scan_permutation cs)) as H.
  rewrite map_app, map_map in H. exact H.
Qed.

Lemma scan_NoDup (cs : list Object3D) :
  NoDup (map object_id cs) ->
  NoDup (map object_id (fst (scan axis slice cs)))
  /\ NoDup (map id (snd (scan axis slice cs)))
  /\ forall m, In m (snd (scan axis slice cs)) ->
               ~ In (id m) (map object_id (fst (scan axis slice cs))).
Proof.
  intros H. pose proof (Permutation_NoDup (scan_ids cs) H) as Hnd.
  split; [|split].
  - eapply NoDup_app_remove_r; eassumption.
  - eapply NoDup_app_remove_l; eassumption.
  - intros m Hm Hin.
    induction (map object_id (fst (scan axis slice cs))) as [|k ks IHk];
      [contradiction|].
    simpl in Hnd. inversion Hnd as [|? ? Hk Hks]; subst.
    destruct Hin as [-> | Hin].
    + apply Hk. apply in_or_app. right. now apply in_map.
    + now apply IHk.
Qed.

End Scan.

(** * The positions and orientations recorded by the scan *)

Lemma get_not_recorded {V : Type} (f : Mesh -> V) (det : list Mesh) :
  forall (ps : WeakMap.t V) (key : nat),
    ~ In key (map id det) ->
    WeakMap.get (fold_left (fun ps m => WeakMap.set ps (id m) (f m)) det ps) key
    = WeakMap.get ps key.
Proof.
  induction det as [|m det IH]; intros ps key H; [reflexivity|].
  simpl in *. rewrite IH by tauto. simpl.
  destruct (Nat.eqb_spec (id m) key); [tauto | reflexivity].
Qed.

Lemma get_recorded {V : Type} (f : Mesh -> V) (det : list Mesh) :
  forall (ps : WeakMap.t V) (m : Mesh),
    NoDup (map id det) -> In m det ->
    WeakMap.get (fold_left (fun ps m => WeakMap.set ps (id m) (f m)) det ps) (id m)
    = Some (f m).
Proof.
  induction det as [|m' det IH]; intros ps m Hnd Hin; [contradiction|].
  simpl in *. inversion Hnd as [|? ? Hm' Hdet]; subst.
  destruct Hin as [-> | Hin].
  - rewrite get_not_recorded by assumption. simpl. now rewrite Nat.eqb_refl.
  - now apply IH.
Qed.

(** * The constructor and the commit, in closed form *)

Lemma new_CubeAnimation_spec (fresh : nat) (g : Group) (ax idx dir : Z) (cb : Callback) :
  (0 <= ax <= 2)%Z ->
  NoDup (map object_id (children g)) ->
  exists (this : CubeAnimation) (pivot : Group),
    new_CubeAnimation fresh g ax idx dir cb
    = Some (this, set_children g (fst (scan ax idx (children g)) ++ [AGroup fresh]))
    /\ axis this = ax /\ index this = idx /\ direction this = dir /\ onComplete this = cb
    /\ rotationGroup this = Some pivot
    /\ group_id pivot = fresh
    /\ children pivot
       = map (fun m => AMesh (centred this m)) (snd (scan ax idx (children g)))
    /\ originalPositions this
       = fold_left (fun ps m => WeakMap.set ps (id m) (position m))
           (snd (scan ax idx (children g))) WeakMap.empty
    /\ originalQuaternions this
       = fold_left (fun qs m => WeakMap.set qs (id m) (quaternion m))
           (snd (scan ax idx (children g))) WeakMap.empty.
Proof.
  intros Ha Hnd. unfold new_CubeAnimation, createRotationGroup.
  pose proof (forEach_detach_scan (length (children g)) [] (children g)
                (set_rotationGroup (blank ax idx dir cb) (Some (new_Group fresh)))
                (new_Group fresh) g Ha eq_refl eq_refl (Nat.le_refl _) Hnd) as H.
  simpl length in H at 2. rewrite H. clear H.
  cbn [axis index set_rotationGroup blank].
  destruct (scan ax idx (children g)) as [kept det]. cbn [fst snd scanned rotationGroup].
  eexists _, _. split; [reflexivity|].
  cbn. repeat split; reflexivity.
Qed.

Lemma restore_recorded (this : CubeAnimation) (m : Mesh) (p : Vector3.t) (q : Quaternion.t) :
  WeakMap.get (originalPositions this) (id m) = Some p ->
  WeakMap.get (originalQuaternions this) (id m) = Some q ->
  restore this (AMesh m)
  = AMesh {| id := id m; position := snapped this p; quaternion := Quaternion.identity |}.
Proof.
  intros Hp Hq. unfold restore. simpl object_id. rewrite Hp, Hq. reflexivity.
Qed.

Lemma commit_spec (fresh : nat) (g : Group) (ax idx dir : Z) (cb : Callback) :
  (0 <= ax <= 2)%Z ->
  well_formed fresh g ->
  exists (this : CubeAnimation) (g1 : Group),
    new_CubeAnimation fresh g ax idx dir cb = Some (this, g1)
    /\ axis this = ax /\ index this = idx /\ direction this = dir /\ onComplete this = cb
    /\ detached this = map id (snd (scan ax idx (children g)))
    /\ children g1 = fst (scan ax idx (children g)) ++ [AGroup fresh]
    /\ finish this g1
       = (set_originals (set_rotationGroup this None) WeakMap.empty WeakMap.empty,
          set_children g
            (fst (scan ax idx (children g))
             ++ map (fun m => AMesh (turned this m)) (snd (scan ax idx (children g)))),
          Some cb).
Proof.
  intros Ha [Hnd Hfresh].
  destruct (new_CubeAnimation_spec fresh g ax idx dir cb Ha Hnd)
    as (this & pivot & Hnew & Hax & Hidx & Hdir & Hcb & Hpivot & Hid & Hcs & Hps & Hqs).
  exists this, (set_children g (fst (scan ax idx (children g)) ++ [AGroup fresh])).
  split; [exact Hnew|]. repeat (split; [assumption|]).
  destruct (scan_NoDup ax idx (children g) Hnd) as (Hk & Hd & Hdisj).
  pose proof (scan_permutation ax idx (children g)) as Hperm.
  split; [|split; [reflexivity|]].
  - unfold detached. rewrite Hpivot, Hcs, map_map. reflexivity.
  - rewrite (finish_in_flight this pivot _ Hpivot). rewrite Hcb, Hid. f_equal. f_equal.
    unfold remove, set_children. cbn [children group_id group_position group_rotation object_id].
    f_equal. rewrite <- app_assoc. cbn [app].
    rewrite (splice_object_middle (AGroup fresh)).
    + f_equal. rewrite Hcs, map_map. apply map_ext_in. intros m Hm.
      rewrite (restore_recorded this (centred this m) (position m) (quaternion m)).
      * reflexivity.
      * rewrite Hps. exact (get_recorded position _ _ m Hd Hm).
      * rewrite Hqs. exact (get_recorded quaternion _ _ m Hd Hm).
    + intros Hin. apply in_map_iff in Hin. destruct Hin as (o & Ho & Hin).
      assert (In o (children g)).
      { eapply Permutation_in; [apply Permutation_sym, Hperm|].
        apply in_or_app. now left. }
      specialize (Hfresh o H). simpl in Ho. lia.
Qed.

(** * Finding a cubie by identity *)

Lemma NoDup_ids_inj (l : list Object3D) (a b : Object3D) :
  NoDup (map object_id l) -> In a l -> In b l -> object_id a = object_id b -> a = b.
Proof.
  induction l as [|c l IH]; intros Hnd Ha Hb E; [contradiction|].
  simpl in Hnd. inversion Hnd as [|? ? Hc Hl]; subst.
  destruct Ha as [-> | Ha], Hb as [-> | Hb]; try reflexivity.
  - exfalso. apply Hc. rewrite E. now apply in_map.
  - exfalso. apply Hc. rewrite <- E. now apply in_map.
  - now apply IH.
Qed.

Lemma find_mesh_unique (g : Group) (m : Mesh) :
  NoDup (map object_id (children g)) ->
  In (AMesh m) (children g) ->
  find_mesh g (id m) = Some m.
Proof.
  unfold find_mesh, meshes. induction (children g) as [|c l IH]; intros Hnd Hin;
    [contradiction|].
  simpl in Hnd. inversion Hnd as [|? ? Hc Hl]; subst.
  destruct Hin as [-> | Hin].
  - simpl. now rewrite Nat.eqb_refl.
  - destruct c as [m'|ref]; simpl; [|now apply IH].
    destruct (Nat.eqb_spec (id m') (id m)) as [E|_]; [|now apply IH].
    exfalso. apply Hc. simpl. rewrite E.
    change (id m) with (object_id (AMesh m)). now apply in_map.
Qed.

Lemma committed_NoDup (ax idx : Z) (this : CubeAnimation) (g : Group) :
  NoDup (map object_id (children g)) ->
  NoDup (map object_id
           (fst (scan ax idx (children g))
            ++ map (fun m => AMesh (turned this m)) (snd (scan ax idx (children g))))).
Proof.
  intros Hnd. rewrite map_app, map_map. simpl.
  exact (Permutation_NoDup (scan_ids ax idx (children g)) Hnd).
Qed.

Lemma detached_member (ax idx : Z) (g : Group) (m : Mesh) :
  NoDup (map object_id (children g)) ->
  In (AMesh m) (children g) ->
  In (id m) (map id (snd (scan ax idx (children g)))) ->
  In m (snd (scan ax idx (children g))).
Proof.
  intros Hnd Hin Hid. apply in_map_iff in Hid. destruct Hid as (m' & E & Hm').
  assert (Hin' : In (AMesh m') (children g)).
  { eapply Permutation_in; [apply Permutation_sym, (scan_permutation ax idx)|].
    apply in_or_app. right. now apply in_map. }
  assert (AMesh m' = AMesh m) as Heq by (eapply NoDup_ids_inj; eassumption).
  now injection Heq as ->.
Qed.

Lemma round_of_Z (x y z : Z) : Vector3.round (Vector3.of_Z x y z) = Vector3.of_Z x y z.
Proof.
  unfold Vector3.round, Vector3.of_Z. simpl.
  f_equal; apply round_near; lra.
Qed.

(** * What a commit does to a detached cubie *)

Lemma commit_detached (fresh : nat) (g : Group) (ax idx dir : Z) (cb : Callback)
  (this : CubeAnimation) (g1 : Group) (deltas : list Q) (m : Mesh) :
  well_formed fresh g ->
  (0 <= ax <= 2)%Z ->
  new_CubeAnimation fresh g ax idx dir cb = Some (this, g1) ->
  In (AMesh m) (children g) ->
  In (id m) (detached this) ->
  committed (updates deltas this) g1 = committed this g1
  /\ find_mesh (committed this g1) (id m) = Some (turned this m)
  /\ In (AMesh (turned this m)) (children (committed this g1))
  /\ ~ In (AGroup fresh) (children (committed this g1))
  /\ axis this = ax /\ direction this = dir.
Proof.
  intros Hwf Ha Hnew Hin Hdet.
  destruct (commit_spec fresh g ax idx dir cb Ha Hwf)
    as (this' & g1' & Hnew' & Hax & Hidx & Hdir & Hcb & Hdet' & Hg1 & Hfin).
  rewrite Hnew in Hnew'. injection Hnew' as <- <-.
  destruct Hwf as [Hnd Hfresh].
  split; [|split; [|split; [|split; [|split]]]]; try assumption.
  - symmetry. apply committed_same_commit, updates_same_commit.
  - unfold committed. rewrite Hfin. cbn [fst snd].
    rewrite Hdet' in Hdet. apply (detached_member ax idx g m Hnd Hin) in Hdet.
    change (id m) with (id (turned this m)).
    apply find_mesh_unique.
    + cbn [children set_children]. now apply committed_NoDup.
    + cbn [children set_children]. apply in_or_app. right.
      apply in_map_iff. now exists m.
  - unfold committed. rewrite Hfin. cbn [fst snd children set_children].
    rewrite Hdet' in Hdet. apply (detached_member ax idx g m Hnd Hin) in Hdet.
    apply in_or_app. right. apply in_map_iff. now exists m.
  - unfold committed. rewrite Hfin. cbn [fst snd children set_children].
    intros H. apply in_app_or in H. destruct H as [H | H].
    + assert (In (AGroup fresh) (children g)) as Hg.
      { eapply Permutation_in; [apply Permutation_sym, (scan_permutation ax idx)|].
        apply in_or_app. now left. }
      specialize (Hfresh _ Hg). simpl in Hfresh. lia.
    + apply in_map_iff in H. destruct H as (m' & E & _). discriminate E.
Qed.

Lemma initial_group_well_formed : well_formed 28 initial_group.
Proof.
  split.
  - vm_compute.
    repeat (constructor;
            [ intros H; repeat (destruct H as [H | H]; [discriminate H|]); exact H | ]).
    constructor.
  - intros o H. vm_compute in H.
    repeat (destruct H as [H | H]; [subst o; vm_compute; lia|]). contradiction.
Qed.

(** C1.  A cubie of a well-formed group that the constructor detached,
    recorded at an integer point, is found after [finish] at the exact
    quarter turn of that point about the axis of the move, each
    coordinate rounded; this holds whatever frame deltas [update] was
    given before [finish], and the whole committed group is the one
    [finish] gives with no [update] at all. *)
Theorem commit_position_is_quarter_turn
  (fresh : nat) (g : Group) (ax idx dir : Z) (cb : Callback)
  (this : CubeAnimation) (g1 : Group) (deltas : list Q) (m : Mesh) (x y z : Z) :
  well_formed fresh g ->
  (0 <= ax <= 2)%Z ->
  (dir = 1 \/ dir = -1)%Z ->
  new_CubeAnimation fresh g ax idx dir cb = Some (this, g1) ->
  In (AMesh m) (children g) ->
  In (id m) (detached this) ->
  integral m x y z ->
  (exists m',
      find_mesh (committed (updates deltas this) g1) (id m) = Some m'
      /\ position m'
         = Vector3.round (let '(x', y', z') := quarter_turn ax dir (x, y, z) in
                          Vector3.of_Z x' y' z'))
  /\ committed (updates deltas this) g1 = committed this g1.
Proof.
  intros Hwf Ha Hd Hnew Hin Hdet [Hpos Hb].
  destruct (commit_detached fresh g ax idx dir cb this g1 deltas m Hwf Ha Hnew Hin Hdet)
    as (Hsame & Hfind & _ & _ & Hax & Hdir).
  split; [|exact Hsame].
  exists (turned this m). rewrite Hsame. split; [exact Hfind|].
  unfold turned. cbn [position]. rewrite Hpos.
  rewrite snapped_quarter_turn; rewrite ?Hax, ?Hdir; try assumption.
  destruct (quarter_turn ax dir (x, y, z)) as [[x' y'] z'].
  now rewrite round_of_Z.
Qed.

Lemma commit_position_is_quarter_turn_witness :
  exists m',
    find_mesh (committed (updates [1 # 10; 1 # 10; 1 # 10] (fst (begun (moveData 1 1 (-1)))))
                 (snd (begun (moveData 1 1 (-1))))) 7
    = Some m'
    /\ position m' = Vector3.round (Vector3.of_Z 1 1 (-1)).
Proof.
  refine (proj1 (commit_position_is_quarter_turn 28 initial_group 1 1 (-1) last_move
            (fst (begun (moveData 1 1 (-1)))) (snd (begun (moveData 1 1 (-1))))
            [1 # 10; 1 # 10; 1 # 10]
            {| id := 7; position := Vector3.of_Z (-1) 1 (-1);
               quaternion := Quaternion.identity |}
            (-1) 1 (-1) initial_group_well_formed _ _ _ _ _ _)).
  - lia.
  - right; reflexivity.
  - vm_compute. reflexivity.
  - vm_compute. tauto.
  - vm_compute. tauto.
  - split; [reflexivity | lia].
Defined.

(** C4, as the code has it.  A cubie of a well-formed group that the
    constructor detached is, after [finish], a child of the group again,
    with the identity orientation: [rotation.set(0, 0, 0)] clears the
    orientation copied back, and no quarter turn is composed into it.
    The pivot is no longer a child of the group. *)
Theorem commit_resets_orientation
  (fresh : nat) (g : Group) (ax idx dir : Z) (cb : Callback)
  (this : CubeAnimation) (g1 : Group) (deltas : list Q) (m : Mesh) :
  well_formed fresh g ->
  (0 <= ax <= 2)%Z ->
  new_CubeAnimation fresh g ax idx dir cb = Some (this, g1) ->
  In (AMesh m) (children g) ->
  In (id m) (detached this) ->
  exists m',
    find_mesh (committed (updates deltas this) g1) (id m) = Some m'
    /\ quaternion m' = Quaternion.identity
    /\ In (AMesh m') (children (committed (updates deltas this) g1))
    /\ ~ In (AGroup fresh) (children (committed (updates deltas this) g1)).
Proof.
  intros Hwf Ha Hnew Hin Hdet.
  destruct (commit_detached fresh g ax idx dir cb this g1 deltas m Hwf Ha Hnew Hin Hdet)
    as (Hsame & Hfind & Hchild & Hpivot & _).
  exists (turned this m). rewrite Hsame. repeat split; assumption.
Qed.

Lemma commit_resets_orientation_witness :
  exists m',
    find_mesh (committed (updates [3 # 10] (fst (begun (moveData 1 1 (-1)))))
                 (snd (begun (moveData 1 1 (-1))))) 7
    = Some m'
    /\ quaternion m' = Quaternion.identity
    /\ In (AMesh m') (children (committed (updates [3 # 10] (fst (begun (moveData 1 1 (-1)))))
                                  (snd (begun (moveData 1 1 (-1))))))
    /\ ~ In (AGroup 28) (children (committed (updates [3 # 10] (fst (begun (moveData 1 1 (-1)))))
                                     (snd (begun (moveData 1 1 (-1)))))).
Proof.
  refine (commit_resets_orientation 28 initial_group 1 1 (-1) last_move
            (fst (begun (moveData 1 1 (-1)))) (snd (begun (moveData 1 1 (-1))))
            [3 # 10]
            {| id := 7; position := Vector3.of_Z (-1) 1 (-1);
               quaternion := Quaternion.identity |}
            initial_group_well_formed _ _ _ _).
  - lia.
  - vm_compute. reflexivity.
  - vm_compute. tauto.
  - vm_compute. tauto.
Defined.

(** C4, as the specification has it, fails on the solved cube: move U
    detaches cubie 7, whose orientation before and after the commit is
    the identity, which is not the identity followed by a quarter turn. *)
Lemma restored_orientation_not_composed :
  exists before after : Mesh,
    find_mesh initial_group 7 = Some before
    /\ In 7%nat (detached (fst (begun (moveData 1 1 (-1)))))
    /\ find_mesh (committed (fst (begun (moveData 1 1 (-1))))
                    (snd (begun (moveData 1 1 (-1))))) 7 = Some after
    /\ orientation_composed 1 (-1) (quaternion before) (quaternion after) = false.
Proof.
  eexists _, _. split; [vm_compute; reflexivity|].
  split; [vm_compute; tauto|].
  split; [vm_compute; reflexivity|].
  vm_compute. reflexivity.
Qed.

(** C8, as the code has it.  Layer extraction has no guard: for every
    axis 0, 1 or 2 and every slice, 0 included, the constructor returns a
    session in flight, whose [finish] invokes the completion callback.
    When no cubie of the group is on the slice, nothing is detached and
    the committed group is the group before the move. *)
Theorem extraction_never_rejects
  (fresh : nat) (g : Group) (ax idx dir : Z) (cb : Callback) :
  well_formed fresh g ->
  (0 <= ax <= 2)%Z ->
  exists (this : CubeAnimation) (g1 : Group),
    new_CubeAnimation fresh g ax idx dir cb = Some (this, g1)
    /\ in_flight this = true
    /\ snd (finish this g1) = Some cb
    /\ ((forall m, In (AMesh m) (children g) -> on_slice ax idx m = false) ->
        detached this = [] /\ committed this g1 = g).
Proof.
  intros Hwf Ha.
  destruct (commit_spec fresh g ax idx dir cb Ha Hwf)
    as (this & g1 & Hnew & Hax & Hidx & Hdir & Hcb & Hdet & Hg1 & Hfin).
  exists this, g1. split; [exact Hnew|].
  assert (Hfl : in_flight this = true).
  { destruct Hwf as [Hnd _].
    destruct (new_CubeAnimation_spec fresh g ax idx dir cb Ha Hnd)
      as (this' & pivot & Hnew' & _ & _ & _ & _ & Hp & _).
    rewrite Hnew in Hnew'. injection Hnew' as <-.
    unfold in_flight. now rewrite Hp. }
  split; [exact Hfl|]. split; [now rewrite Hfin|].
  intros Hnone. rewrite Hdet. unfold committed. rewrite Hfin. cbn [fst snd].
  rewrite (scan_nothing ax idx (children g) Hnone). cbn [fst snd map].
  rewrite app_nil_r. split; [reflexivity|]. apply set_children_same.
Qed.

Lemma extraction_never_rejects_witness :
  exists (this : CubeAnimation) (g1 : Group),
    new_CubeAnimation 28 initial_group 0 0 1 last_move = Some (this, g1)
    /\ in_flight this = true
    /\ snd (finish this g1) = Some last_move
    /\ ((forall m, In (AMesh m) (children initial_group) -> on_slice 0 0 m = false) ->
        detached this = [] /\ committed this g1 = initial_group).
Proof.
  refine (extraction_never_rejects 28 initial_group 0 0 1 last_move
            initial_group_well_formed _).
  lia.
Defined.

(** C8, as the specification has it, fails on the solved cube: with
    slice 0 on the X axis the constructor neither throws nor leaves the
    session idle, and its commit moves cubies. *)
Lemma slice_zero_is_turned : ~ extraction_guarded 28 initial_group 0 0 1 last_move.
Proof.
  unfold extraction_guarded. intros H.
  specialize (H (or_introl eq_refl)).
  destruct (new_CubeAnimation 28 initial_group 0 0 1 last_move) as [[this g1]|] eqn:E;
    vm_compute in E; [|discriminate E].
  injection E as <- <-. specialize (H 10%nat). vm_compute in H. discriminate H.
Qed.

(** * The solved cube *)

(** C5 on the code.  On the solved cube the layer of move R, the slice
    x = 1, has nine cubies, and the constructor detaches five of them:
    each splice moves the next cubie of the layer into the slot just
    visited, and the scan passes over it.  Move U detaches six cubies of
    its nine. *)
Theorem extraction_misses_cubies :
  layer initial_group 0 1 = [19; 20; 21; 22; 23; 24; 25; 26; 27]%nat
  /\ detached (fst (begun (moveData 0 1 (-1)))) = [19; 21; 23; 25; 27]%nat
  /\ layer initial_group 1 1 = [7; 8; 9; 16; 17; 18; 25; 26; 27]%nat
  /\ detached (fst (begun (moveData 1 1 (-1)))) = [7; 9; 16; 18; 25; 27]%nat.
Proof. repeat split; vm_compute; reflexivity. Qed.

(** C6 on the code.  After move U alone on the solved cube, committed and
    at rest, cubies 16 and 26 are both at (1, 1, 0). *)
Theorem cubies_collide_after_U :
  let w := run initial_world (play ["U"]%string) in
  crashed w = false
  /\ quiescent w
  /\ started (trace w) = [moveData 1 1 (-1)]
  /\ pose (group w) 16 = Some (Vector3.of_Z 1 1 0, Quaternion.identity)
  /\ pose (group w) 26 = Some (Vector3.of_Z 1 1 0, Quaternion.identity).
Proof.
  vm_compute. repeat split; try reflexivity.
  intros a [<- | []]. reflexivity.
Qed.

(** C9 on the code.  After U then U' on the solved cube, both committed,
    cubie 8 is at (0, 1, 1); it started at (-1, 1, 0). *)
Theorem inverse_does_not_restore :
  let w := run initial_world (play ["U"; "U'"]%string) in
  crashed w = false
  /\ quiescent w
  /\ started (trace w) = [moveData 1 1 (-1); moveData 1 1 1]
  /\ pose initial_group 8 = Some (Vector3.of_Z (-1) 1 0, Quaternion.identity)
  /\ pose (group w) 8 = Some (Vector3.of_Z 0 1 1, Quaternion.identity).
Proof.
  vm_compute. repeat split; try reflexivity.
  intros a [<- | [<- | []]]; reflexivity.
Qed.

(** * The heap of sessions *)

Lemma nth_error_store_same (ref : nat) (a b : CubeAnimation) (l : list CubeAnimation) :
  nth_error l ref = Some b -> nth_error (store ref a l) ref = Some a.
Proof.
  revert ref. induction l as [|c l IH]; intros [|ref]; simpl; intros H;
    try discriminate; auto.
Qed.

Lemma nth_error_store_other (ref i : nat) (a : CubeAnimation) (l : list CubeAnimation) :
  i <> ref -> nth_error (store ref a l) i = nth_error l i.
Proof.
  revert ref i. induction l as [|c l IH]; intros [|ref] [|i] H; simpl; auto;
    congruence.
Qed.

Lemma store_same (ref : nat) (a : CubeAnimation) (l : list CubeAnimation) :
  nth_error l ref = Some a -> store ref a l = l.
Proof.
  revert ref. induction l as [|c l IH]; intros [|ref]; simpl; intros H;
    try discriminate.
  - now injection H as ->.
  - f_equal. now apply IH.
Qed.

Lemma In_store (ref : nat) (a b : CubeAnimation) (l : list CubeAnimation) :
  In b (store ref a l) -> b = a \/ In b l.
Proof.
  revert ref. induction l as [|c l IH]; intros [|ref]; simpl; intros H; auto.
  - destruct H as [<- | H]; auto.
  - destruct H as [<- | H]; auto. destruct (IH ref H); auto.
Qed.

(** * A session that is over *)

Lemma update_over (delta : Q) (this : CubeAnimation) :
  rotationGroup this = None -> update delta this = (true, this).
Proof. intros H. unfold update. now rewrite H. Qed.

Lemma finish_over (this : CubeAnimation) (g : Group) :
  rotationGroup this = None -> finish this g = (this, g, None).
Proof. intros H. unfold finish. now rewrite H. Qed.

Lemma frame_over (delta : Q) (w : World) (ref : nat) (this : CubeAnimation) :
  propAnimation w = Some ref ->
  nth_error (animations w) ref = Some this ->
  rotationGroup this = None ->
  frame delta w = w.
Proof.
  intros Hp Hn Hr. unfold frame. rewrite Hp, Hn, (update_over delta this Hr).
  rewrite (finish_over this (group w) Hr), (store_same ref this _ Hn).
  destruct w; simpl in *; subst; reflexivity.
Qed.

Lemma quiescent_step (w : World) (e : Event) :
  quiescent w -> passive e = true ->
  quiescent (step w e) /\ trace (step w e) = trace w.
Proof.
  intros (Hq & Hc & Ha) He. unfold step.
  destruct (crashed w); [now repeat split|].
  destruct e as [|move| |delta]; try discriminate He.
  - simpl. now repeat split.
  - unfold render, processQueue. cbn [state]. rewrite Hq. simpl. now repeat split.
  - destruct (propAnimation w) as [ref|] eqn:Ep.
    + destruct (nth_error (animations w) ref) as [this|] eqn:En.
      * rewrite (frame_over delta w ref this Ep En (Ha this (nth_error_In _ _ En))).
        now repeat split.
      * unfold frame. rewrite Ep, En. now repeat split.
    + unfold frame. rewrite Ep. now repeat split.
Qed.

Lemma quiescent_run (es : list Event) :
  forall w, quiescent w ->
            quiescent (run w (filter passive es))
            /\ trace (run w (filter passive es)) = trace w.
Proof.
  induction es as [|e es IH]; intros w Hq; [now split|].
  simpl. destruct (passive e) eqn:He; [|now apply IH].
  simpl. destruct (quiescent_step w e Hq He) as [Hq' Ht].
  destruct (IH _ Hq') as [Hq'' Ht']. split; [exact Hq''|]. now rewrite Ht'.
Qed.


(** C2 on the code.  Move D, requested while the animation of U is in
    flight, is appended to the tail of the queue; when U commits, its
    callback stores the queue it captured at its start, which is empty.
    D is gone from the queue and no later render or frame starts it. *)
Theorem move_enqueued_in_flight_is_lost :
  let w1 := run initial_world
              [SceneMount; PerformMove "U"; Render; Render; PerformMove "D"] in
  let w2 := run w1 [Render; Frame (3 # 10)] in
  (moveQueue (state w1) = [moveData 1 1 (-1); moveData 1 (-1) 1]
   /\ currentAnimation (state w1) = Some 0%nat)
  /\ (crashed w2 = false /\ moveQueue (state w2) = []
      /\ trace w2 = [Completed 0; Started 0 (moveData 1 1 (-1))])
  /\ forall es : list Event,
       started (trace (run w2 (filter passive es))) = [moveData 1 1 (-1)].
Proof.
  intros w1 w2.
  split; [vm_compute; split; reflexivity|].
  split; [vm_compute; repeat split; reflexivity|].
  intros es.
  assert (Hq : quiescent w2).
  { vm_compute. repeat split; try reflexivity. intros a [<- | []]. reflexivity. }
  destruct (quiescent_run es w2 Hq) as [_ ->]. vm_compute. reflexivity.
Qed.

(** * One animation at a time *)

Lemma new_CubeAnimation_in_flight (fresh : nat) (g : Group) (ax idx dir : Z)
  (cb : Callback) (a : CubeAnimation) (g' : Group) :
  new_CubeAnimation fresh g ax idx dir cb = Some (a, g') -> in_flight a = true.
Proof.
  unfold new_CubeAnimation, createRotationGroup.
  destruct (forEach _ _ _ _) as [[this1 g1]|]; [|discriminate].
  destruct (rotationGroup this1); [|discriminate].
  intros H. injection H as <- <-. reflexivity.
Qed.

Lemma update_in_flight (delta : Q) (a : CubeAnimation) :
  in_flight (snd (update delta a)) = in_flight a.
Proof.
  unfold update, in_flight. destruct (rotationGroup a) eqn:E; simpl; now rewrite ?E.
Qed.

Lemma finish_result (a : CubeAnimation) (g : Group) :
  in_flight (fst (fst (finish a g))) = false
  /\ snd (finish a g) = if in_flight a then Some (onComplete a) else None.
Proof.
  unfold finish, in_flight. destruct (rotationGroup a) as [pivot|] eqn:E.
  - destruct (finish_loop _ a pivot g). simpl. split; reflexivity.
  - simpl. rewrite E. split; reflexivity.
Qed.

Lemma orderly_initial : orderly initial_world.
Proof.
  unfold orderly. simpl. split; [exact I|]. split.
  - intros [|i] a H; discriminate H.
  - intros i m tr H. discriminate H.
Qed.

Lemma orderly_same (w w' : World) :
  animations w' = animations w ->
  currentAnimation (state w') = currentAnimation (state w) ->
  trace w' = trace w ->
  orderly w -> orderly w'.
Proof.
  unfold orderly. intros -> -> ->. tauto.
Qed.

Lemma orderly_processQueue (w : World) : orderly w -> orderly (processQueue w).
Proof.
  intros Ho. unfold processQueue.
  destruct (moveQueue (state w)) as [|nextMove newQueue] eqn:Eq; [exact Ho|].
  destruct (cubeGroup (state w)) as [cg|]; [|exact Ho].
  destruct (currentAnimation (state w)) as [cur|] eqn:Ec; [exact Ho|].
  destruct (new_CubeAnimation _ _ _ _ _ _) as [[animation g']|] eqn:En.
  - apply new_CubeAnimation_in_flight in En.
    destruct Ho as (Halt & Hfl & Hst).
    assert (Hnone : forall i a, nth_error (animations w) i = Some a -> in_flight a = false).
    { intros i a Hi. destruct (in_flight a) eqn:E; [|reflexivity].
      destruct (Hfl i a Hi E) as [Hcur _]. congruence. }
    unfold orderly. cbn [trace animations state currentAnimation]. split; [|split].
    + simpl. destruct (trace w) as [|[j m|j] tr] eqn:Et; try exact Halt.
      destruct (Hst j m tr eq_refl) as (a & Ha & Hf).
      rewrite (Hnone j a Ha) in Hf. discriminate Hf.
    + intros i a Hi Hf.
      destruct (Nat.lt_ge_cases i (length (animations w))) as [Hlt | Hge].
      * rewrite nth_error_app1 in Hi by exact Hlt.
        rewrite (Hnone i a Hi) in Hf. discriminate Hf.
      * rewrite nth_error_app2 in Hi by exact Hge.
        destruct (i - length (animations w))%nat as [|k] eqn:Ek.
        -- assert (i = length (animations w)) as -> by lia. split; [reflexivity|].
           eauto.
        -- simpl in Hi. destruct k; discriminate Hi.
    + intros i m tr H. injection H as <- <- <-.
      exists animation. split; [|exact En].
      rewrite nth_error_app2 by lia. now rewrite Nat.sub_diag.
  - revert Ho. apply orderly_same; reflexivity.
Qed.

Lemma orderly_frame (delta : Q) (w : World) : orderly w -> orderly (frame delta w).
Proof.
  intros Ho. unfold frame.
  destruct (propAnimation w) as [ref|] eqn:Ep; [|exact Ho].
  destruct (nth_error (animations w) ref) as [this|] eqn:En; [|exact Ho].
  pose proof (update_in_flight delta this) as Hu.
  destruct (update delta this) as [isComplete this1]. cbn [snd] in Hu.
  destruct Ho as (Halt & Hfl & Hst).
  assert (Hothers : forall i a, i <> ref -> nth_error (animations w) i = Some a ->
                                in_flight this = true -> in_flight a = false).
  { intros i a Hne Hi Hthis. destruct (in_flight a) eqn:E; [|reflexivity].
    destruct (Hfl i a Hi E) as [Hc1 _]. destruct (Hfl ref this En Hthis) as [Hc2 _].
    congruence. }
  destruct isComplete.
  - destruct (finish_result this1 (group w)) as [Hf1 Hf2].
    destruct (finish this1 (group w)) as [[this2 g'] called].
    cbn [fst snd] in Hf1, Hf2. rewrite Hu in Hf2.
    destruct (in_flight this) eqn:Ethis; subst called.
    + destruct (Hfl ref this En Ethis) as [Hcur (m & tr & Htr)].
      unfold orderly. cbn [trace animations state currentAnimation run_callback].
      split; [|split].
      * rewrite Htr. simpl. split; [reflexivity|]. rewrite Htr in Halt. exact Halt.
      * intros i a Hi Hf. exfalso.
        destruct (Nat.eq_dec i ref) as [-> | Hne].
        -- rewrite (nth_error_store_same ref this2 this _ En) in Hi.
           injection Hi as <-. congruence.
        -- rewrite (nth_error_store_other ref i this2 _ Hne) in Hi.
           rewrite (Hothers i a Hne Hi eq_refl) in Hf. discriminate Hf.
      * intros i m' tr' H. discriminate H.
    + unfold orderly. cbn [trace animations state]. split; [exact Halt|]. split.
      * intros i a Hi Hf.
        destruct (Nat.eq_dec i ref) as [-> | Hne].
        -- rewrite (nth_error_store_same ref this2 this _ En) in Hi.
           injection Hi as <-. congruence.
        -- rewrite (nth_error_store_other ref i this2 _ Hne) in Hi. exact (Hfl i a Hi Hf).
      * intros i m tr H. destruct (Hst i m tr H) as (a & Ha & Hf).
        destruct (Nat.eq_dec i ref) as [-> | Hne].
        -- congruence.
        -- exists a. now rewrite (nth_error_store_other ref i this2 _ Hne).
  - unfold orderly. cbn [trace animations state]. split; [exact Halt|]. split.
    + intros i a Hi Hf.
      destruct (Nat.eq_dec i ref) as [-> | Hne].
      * rewrite (nth_error_store_same ref this1 this _ En) in Hi.
        injection Hi as <-. rewrite Hu in Hf. exact (Hfl ref this En Hf).
      * rewrite (nth_error_store_other ref i this1 _ Hne) in Hi. exact (Hfl i a Hi Hf).
    + intros i m tr H. destruct (Hst i m tr H) as (a & Ha & Hf).
      destruct (Nat.eq_dec i ref) as [-> | Hne].
      * exists this1. rewrite (nth_error_store_same ref this1 this _ En).
        split; [reflexivity|]. rewrite Hu. congruence.
      * exists a. now rewrite (nth_error_store_other ref i this1 _ Hne).
Qed.

Lemma orderly_step (w : World) (e : Event) : orderly w -> orderly (step w e).
Proof.
  intros Ho. unfold step. destruct (crashed w); [exact Ho|].
  destruct e as [|move| |delta].
  - revert Ho. apply orderly_same; reflexivity.
  - unfold performMove. destruct (parse move); [|exact Ho].
    revert Ho. apply orderly_same; reflexivity.
  - unfold render. apply orderly_processQueue.
    revert Ho. apply orderly_same; reflexivity.
  - now apply orderly_frame.
Qed.

Lemma orderly_run (es : list Event) : forall w, orderly w -> orderly (run w es).
Proof.
  induction es as [|e es IH]; intros w Ho; [exact Ho|].
  simpl. apply IH. now apply orderly_step.
Qed.

Lemma filter_at_most_one {A : Type} (P : A -> bool) (l : list A) :
  (forall i j a b, nth_error l i = Some a -> nth_error l j = Some b ->
                   P a = true -> P b = true -> i = j) ->
  (length (filter P l) <= 1)%nat.
Proof.
  induction l as [|x l IH]; intros H; simpl; [lia|].
  destruct (P x) eqn:Ex.
  - assert (Hnone : filter P l = []).
    { clear IH. assert (Hall : forall j b, nth_error l j = Some b -> P b = false).
      { intros j b Hj. destruct (P b) eqn:Eb; [|reflexivity].
        specialize (H 0%nat (S j) x b eq_refl Hj Ex Eb). discriminate H. }
      clear H. induction l as [|y l IHl]; [reflexivity|]. simpl.
      rewrite (Hall 0%nat y eq_refl). apply IHl.
      intros j b Hj. exact (Hall (S j) b Hj). }
    rewrite Hnone. simpl. lia.
  - apply IH. intros i j a b Hi Hj Ha Hb.
    specialize (H (S i) (S j) a b Hi Hj Ha Hb). lia.
Qed.

Lemma filter_none {A : Type} (P : A -> bool) (l : list A) :
  (forall i a, nth_error l i = Some a -> P a = false) -> filter P l = [].
Proof.
  induction l as [|x l IH]; intros H; [reflexivity|]. simpl.
  rewrite (H 0%nat x eq_refl). apply IH. intros i a Hi. exact (H (S i) a Hi).
Qed.

Lemma started_only_when_idle (w : World) (e : Event) (i : nat) (m : MoveData) :
  trace (step w e) = Started i m :: trace w ->
  hd_error (moveQueue (state w)) = Some m
  /\ currentAnimation (state w) = None.
Proof.
  assert (Hneq : forall (x : Entry) (l : list Entry), l <> x :: l).
  { intros x l H. apply (f_equal (@length Entry)) in H. simpl in H. lia. }
  unfold step. destruct (crashed w); [intros H; now apply Hneq in H|].
  destruct e as [|move| |delta].
  - simpl. intros H; now apply Hneq in H.
  - unfold performMove. destruct (parse move); simpl; intros H; now apply Hneq in H.
  - unfold render, processQueue. cbn [state moveQueue cubeGroup currentAnimation].
    destruct (moveQueue (state w)) as [|nextMove newQueue];
      [simpl; intros H; now apply Hneq in H|].
    destruct (cubeGroup (state w)); [|simpl; intros H; now apply Hneq in H].
    destruct (currentAnimation (state w)); [simpl; intros H; now apply Hneq in H|].
    destruct (new_CubeAnimation _ _ _ _ _ _) as [[animation g']|];
      simpl; intros H; [|now apply Hneq in H].
    injection H as _ <-. split; reflexivity.
  - unfold frame. destruct (propAnimation w); [|intros H; now apply Hneq in H].
    destruct (nth_error (animations w) n); [|intros H; now apply Hneq in H].
    destruct (update delta c) as [[|] this1].
    + destruct (finish this1 (group w)) as [[this2 g'] [cb|]]; simpl; intros H.
      * discriminate H.
      * now apply Hneq in H.
    + simpl. intros H; now apply Hneq in H.
Qed.

(** C7.  In every world the component can reach, at most one animation
    has its pivot; the entries written alternate between a start and the
    completion of the animation just started, so animations complete in
    the order they were started; and an event starts a move only in a
    world with no animation in flight, the move being the head of a
    queue that is not empty. *)
Theorem one_animation_at_a_time (es : list Event) (e : Event) :
  let w := run initial_world es in
  (length (filter in_flight (animations w)) <= 1)%nat
  /\ alternating (trace w)
  /\ forall i m, trace (step w e) = Started i m :: trace w ->
                 hd_error (moveQueue (state w)) = Some m
                 /\ filter in_flight (animations w) = [].
Proof.
  intros w. pose proof (orderly_run es initial_world orderly_initial) as Ho.
  fold w in Ho. destruct Ho as (Halt & Hfl & Hst).
  split; [|split; [exact Halt|]].
  - apply filter_at_most_one. intros i j a b Hi Hj Ha Hb.
    destruct (Hfl i a Hi Ha) as [Hci _]. destruct (Hfl j b Hj Hb) as [Hcj _].
    congruence.
  - intros i m H. destruct (started_only_when_idle w e i m H) as [Hhd Hcur].
    split; [exact Hhd|]. apply filter_none. intros k a Hk.
    destruct (in_flight a) eqn:E; [|reflexivity].
    destruct (Hfl k a Hk E) as [Hc _]. congruence.
Qed.


Lemma one_animation_at_a_time_witness :
  hd_error (moveQueue (state (run initial_world [SceneMount; PerformMove "U"])))
  = Some (moveData 1 1 (-1))
  /\ filter in_flight (animations (run initial_world [SceneMount; PerformMove "U"])) = [].
Proof.
  refine (proj2 (proj2 (one_animation_at_a_time [SceneMount; PerformMove "U"] Render))
            0%nat (moveData 1 1 (-1)) _).
  vm_compute. reflexivity.
Defined.

(** * Every reachable world is sound *)

Lemma parse_valid (move : string) (m : MoveData) :
  parse move = Some m -> valid_move m.
Proof.
  unfold parse.
  repeat match goal with
  | |- context [String.eqb move ?t] =>
      destruct (String.eqb move t);
      [ intros H; injection H as <-; unfold valid_move; simpl; lia | ]
  end.
  discriminate.
Qed.

Lemma quarter_turn_grid (ax dir x y z : Z) :
  (dir = 1 \/ dir = -1)%Z ->
  (-1 <= x <= 1 /\ -1 <= y <= 1 /\ -1 <= z <= 1)%Z ->
  let '(x', y', z') := quarter_turn ax dir (x, y, z) in
  (-1 <= x' <= 1 /\ -1 <= y' <= 1 /\ -1 <= z' <= 1)%Z.
Proof.
  intros Hd H. unfold quarter_turn.
  destruct ax as [|[p|[p|p|]|]|]; try exact H; destruct Hd as [-> | ->]; lia.
Qed.

Lemma turned_on_grid (this : CubeAnimation) (m : Mesh) :
  (0 <= axis this <= 2)%Z ->
  (direction this = 1 \/ direction this = -1)%Z ->
  on_grid (AMesh m) -> on_grid (AMesh (turned this m)).
Proof.
  intros Ha Hd (m' & x & y & z & E & Hp & Hb & _). injection E as <-.
  pose proof (quarter_turn_grid (axis this) (direction this) x y z Hd Hb) as Hq.
  pose proof (snapped_quarter_turn this x y z Ha Hd ltac:(lia)) as Hs.
  destruct (quarter_turn (axis this) (direction this) (x, y, z)) as [[x' y'] z'].
  exists (turned this m), x', y', z'. unfold turned; cbn [position quaternion].
  rewrite Hp, Hs. now repeat split.
Qed.

Lemma commit_grid (fresh : nat) (g : Group) (mv : MoveData) (cb : Callback)
  (this : CubeAnimation) (g1 : Group) :
  grid fresh g -> valid_move mv ->
  new_CubeAnimation fresh g (move_axis mv) (move_index mv) (move_direction mv) cb
  = Some (this, g1) ->
  grid (S fresh) (committed this g1) /\ snd (finish this g1) = Some cb.
Proof.
  intros (Hwf & Hgrid & Hlen) (Ha & _ & Hd) Hnew.
  destruct (commit_spec fresh g _ (move_index mv) (move_direction mv) cb Ha Hwf)
    as (this' & g1' & Hnew' & Hax & _ & Hdir & _ & _ & _ & Hfin).
  rewrite Hnew in Hnew'. injection Hnew' as <- <-.
  split; [|now rewrite Hfin].
  unfold committed. rewrite Hfin. cbn [fst snd].
  destruct Hwf as [Hnd Hfresh].
  pose proof (scan_permutation (move_axis mv) (move_index mv) (children g)) as Hperm.
  assert (Hkept : forall o, In o (fst (scan (move_axis mv) (move_index mv) (children g))) ->
                            In o (children g)).
  { intros o Ho. eapply Permutation_in; [apply Permutation_sym, Hperm|].
    apply in_or_app. now left. }
  assert (Hdet : forall m, In m (snd (scan (move_axis mv) (move_index mv) (children g))) ->
                           In (AMesh m) (children g)).
  { intros m Hm. eapply Permutation_in; [apply Permutation_sym, Hperm|].
    apply in_or_app. right. now apply in_map. }
  rewrite Forall_forall in Hgrid.
  unfold grid, well_formed. cbn [children set_children].
  split; [split|split].
  - now apply committed_NoDup.
  - intros o Ho. apply in_app_or in Ho. destruct Ho as [Ho | Ho].
    + specialize (Hfresh o (Hkept o Ho)). lia.
    + apply in_map_iff in Ho. destruct Ho as (m & <- & Hm).
      specialize (Hfresh _ (Hdet m Hm)). simpl in *. lia.
  - rewrite Forall_forall. intros o Ho. apply in_app_or in Ho. destruct Ho as [Ho | Ho].
    + apply Hgrid. now apply Hkept.
    + apply in_map_iff in Ho. destruct Ho as (m & <- & Hm).
      apply turned_on_grid; [now rewrite Hax | now rewrite Hdir |].
      apply Hgrid. now apply Hdet.
  - rewrite length_app, length_map. rewrite <- Hlen.
    rewrite (Permutation_length Hperm), length_app, length_map. reflexivity.
Qed.

Lemma initial_group_grid : grid 28 initial_group.
Proof.
  split; [exact initial_group_well_formed|]. split; [|reflexivity].
  rewrite Forall_forall. intros o H. vm_compute in H.
  repeat (destruct H as [H | H];
          [ subst o; eexists _, _, _, _;
            split; [reflexivity|]; split; [reflexivity|]; split; [lia | reflexivity] | ]).
  contradiction.
Qed.

Lemma sound_initial : sound initial_world.
Proof.
  unfold sound. simpl. split; [reflexivity|]. split; [constructor|].
  split; [intros a []|]. split; [intros [|j] b H; discriminate H|].
  exact initial_group_grid.
Qed.

Lemma sound_cells (w w' : World) :
  crashed w' = crashed w -> animations w' = animations w ->
  group w' = group w -> object3DId w' = object3DId w ->
  currentAnimation (state w') = currentAnimation (state w) ->
  Forall valid_move (moveQueue (state w')) ->
  sound w -> sound w'.
Proof.
  intros E1 E2 E3 E4 E5 Hq' (Hc & Hq & Hcb & Hfl & Hcur).
  unfold sound. rewrite E1, E2, E3, E4, E5. tauto.
Qed.

Lemma sound_processQueue (w : World) : sound w -> sound (processQueue w).
Proof.
  intros Hs. pose proof Hs as (Hc & Hq & Hcb & Hfl & Hcur). unfold processQueue.
  destruct (moveQueue (state w)) as [|nextMove newQueue] eqn:Eq; [exact Hs|].
  destruct (cubeGroup (state w)) as [cg|]; [|exact Hs].
  destruct (currentAnimation (state w)) as [cur|] eqn:Ec; [exact Hs|].
  inversion Hq as [|? ? Hmv Hrest]; subst.
  destruct Hcur as (Hwf & Hgrid & Hlen).
  destruct (new_CubeAnimation_spec (object3DId w) (group w) (move_axis nextMove)
              (move_index nextMove) (move_direction nextMove)
              {| newMoveQueue := newQueue |} (proj1 Hmv) (proj1 Hwf))
    as (this & pivot & Hnew & _ & _ & _ & Hon & Hp & _).
  rewrite Hnew. unfold sound.
  cbn [crashed state moveQueue animations currentAnimation object3DId group].
  split; [reflexivity|]. split; [exact Hq|]. split; [|split].
  - intros a Ha. apply in_app_or in Ha. destruct Ha as [Ha | [<- | []]].
    + now apply Hcb.
    + now rewrite Hon.
  - intros j b Hj Hb.
    destruct (Nat.lt_ge_cases j (length (animations w))) as [Hlt | Hge].
    + rewrite nth_error_app1 in Hj by exact Hlt.
      specialize (Hfl j b Hj Hb). congruence.
    + rewrite nth_error_app2 in Hj by exact Hge.
      destruct (j - length (animations w))%nat as [|k] eqn:Ek.
      * f_equal. lia.
      * simpl in Hj. destruct k; discriminate Hj.
  - exists this, this, (group w), (object3DId w), nextMove, {| newMoveQueue := newQueue |}.
    split; [rewrite nth_error_app2 by lia; now rewrite Nat.sub_diag|].
    split; [reflexivity|]. split; [exact (conj Hwf (conj Hgrid Hlen))|]. split; [exact Hmv|].
    split; [exact Hnew | apply same_commit_refl].
Qed.

Lemma finish_onComplete (a : CubeAnimation) (g : Group) :
  onComplete (fst (fst (finish a g))) = onComplete a.
Proof.
  unfold finish. destruct (rotationGroup a) as [pivot|]; [|reflexivity].
  destruct (finish_loop _ a pivot g). reflexivity.
Qed.

Lemma sound_frame (delta : Q) (w : World) : sound w -> sound (frame delta w).
Proof.
  intros Hs. pose proof Hs as (Hc & Hq & Hcb & Hfl & Hcur). unfold frame.
  destruct (propAnimation w) as [ref|] eqn:Ep; [|exact Hs].
  destruct (nth_error (animations w) ref) as [this0|] eqn:En; [|exact Hs].
  destruct (in_flight this0) eqn:Efl.
  2:{ assert (Hr : rotationGroup this0 = None)
        by (unfold in_flight in Efl; destruct (rotationGroup this0); congruence).
      pose proof (frame_over delta w ref this0 Ep En Hr) as Hw.
      unfold frame in Hw. rewrite Ep, En in Hw. rewrite Hw. exact Hs. }
  pose proof (Hfl ref this0 En Efl) as Ecur. rewrite Ecur in Hcur.
  destruct Hcur as (a & this & g0 & fresh & mv & cb & Ha & Hid & Hg0 & Hmv & Hnew & Hsame).
  rewrite En in Ha. injection Ha as <-.
  pose proof (update_same_commit delta this0) as Hu.
  pose proof (update_in_flight delta this0) as Hufl.
  destruct (update delta this0) as [isComplete this1]. cbn [snd] in Hu, Hufl.
  assert (Hsame1 : same_commit this this1) by (eapply same_commit_trans; eassumption).
  assert (Hcb1 : Forall valid_move (newMoveQueue (onComplete this1))).
  { destruct Hu as (_&_&_&<-&_). apply Hcb. eapply nth_error_In; eassumption. }
  assert (Hstore : forall a', In a' (store ref this1 (animations w)) ->
                              Forall valid_move (newMoveQueue (onComplete a'))).
  { intros a' Ha'. apply In_store in Ha'. destruct Ha' as [-> | Ha']; auto. }
  destruct isComplete.
  - destruct (commit_grid fresh g0 mv cb this (group w) Hg0 Hmv Hnew) as [Hgrid Hcalled].
    destruct (committed_same_commit this this1 (group w) Hsame1) as [Hcomm Hcall].
    destruct (finish_result this1 (group w)) as [Hf1 _].
    pose proof (finish_onComplete this1 (group w)) as Hon1.
    unfold committed in Hcomm, Hgrid. rewrite Hcalled in Hcall.
    destruct (finish this1 (group w)) as [[this2 g'] called].
    cbn [fst snd] in Hcomm, Hcall, Hf1, Hon1. subst called g'.
    assert (Hon2 : onComplete this1 = cb).
    { destruct Hsame1 as (_&_&_&<-&_).
      pose proof (new_CubeAnimation_spec fresh g0 (move_axis mv) (move_index mv)
                    (move_direction mv) cb (proj1 Hmv) (proj1 (proj1 Hg0)))
        as (t & p & Hn & _ & _ & _ & Hon & _).
      rewrite Hnew in Hn. injection Hn as <-. exact Hon. }
    unfold sound.
    cbn [crashed state moveQueue animations currentAnimation object3DId group run_callback].
    split; [exact Hc|]. split; [now rewrite <- Hon2|]. split; [|split].
    + intros a' Ha'. apply In_store in Ha'. destruct Ha' as [-> | Ha']; [|now apply Hcb].
      now rewrite Hon1.
    + intros j b Hj Hb. exfalso.
      destruct (Nat.eq_dec j ref) as [-> | Hne].
      * rewrite (nth_error_store_same ref this2 this0 _ En) in Hj.
        injection Hj as <-. congruence.
      * rewrite (nth_error_store_other ref j this2 _ Hne) in Hj.
        specialize (Hfl j b Hj Hb). congruence.
    + rewrite Hid. exact Hgrid.
  - unfold sound.
    cbn [crashed state moveQueue animations currentAnimation object3DId group].
    split; [exact Hc|]. split; [exact Hq|]. split; [exact Hstore|]. split.
    + intros j b Hj Hb.
      destruct (Nat.eq_dec j ref) as [-> | Hne]; [exact Ecur|].
      rewrite (nth_error_store_other ref j this1 _ Hne) in Hj. exact (Hfl j b Hj Hb).
    + rewrite Ecur. exists this1, this, g0, fresh, mv, cb.
      split; [exact (nth_error_store_same ref this1 this0 _ En)|].
      repeat (split; [assumption|]). exact Hsame1.
Qed.

Lemma sound_step (w : World) (e : Event) : sound w -> sound (step w e).
Proof.
  intros Hs. pose proof Hs as (Hc & Hq & _). unfold step. rewrite Hc.
  destruct e as [|move| |delta].
  - revert Hs. apply sound_cells; try reflexivity. exact Hq.
  - unfold performMove. destruct (parse move) as [m|] eqn:Ep; [|exact Hs].
    revert Hs. apply sound_cells; try reflexivity. simpl.
    apply Forall_app. split; [exact Hq|]. constructor; [|constructor].
    exact (parse_valid move m Ep).
  - unfold render. apply sound_processQueue.
    revert Hs. apply sound_cells; try reflexivity. exact Hq.
  - now apply sound_frame.
Qed.

(** Whatever events reach the component, no exception escapes the queue
    effect and, whenever no animation is current, the group holds 27
    distinct cubies, each at a point of the grid with the identity
    orientation. *)
Lemma reachable_sound (es : list Event) : sound (run initial_world es).
Proof.
  unfold run. generalize sound_initial. generalize initial_world.
  induction es as [|e es IH]; intros w Hs; [exact Hs|].
  simpl. apply IH. now apply sound_step.
Qed.

Lemma reachable_at_rest_on_grid (es : list Event) :
  let w := run initial_world es in
  crashed w = false
  /\ (currentAnimation (state w) = None ->
      grid (object3DId w) (group w)
      /\ forall a, In a (animations w) -> in_flight a = false).
Proof.
  intros w. destruct (reachable_sound es) as (Hc & _ & _ & Hfl & Hcur).
  fold w in Hc, Hfl, Hcur. split; [exact Hc|]. intros E. rewrite E in Hcur.
  split; [exact Hcur|]. intros a Ha. destruct (in_flight a) eqn:Ea; [|reflexivity].
  apply In_nth_error in Ha. destruct Ha as [j Hj].
  specialize (Hfl j a Hj Ea). congruence.
Qed.

(** * The parts of the failing claims that do hold *)

(** A recognised move goes to the tail of the queue, whatever the world. *)
Lemma performMove_appends (move : string) (m : MoveData) (w : World) :
  parse move = Some m ->
  moveQueue (state (performMove move w)) = moveQueue (state w) ++ [m].
Proof. intros H. unfold performMove. now rewrite H. Qed.

(** The effect has nothing to do when it runs again on what it left. *)
Lemma processQueue_idempotent (w : World) :
  processQueue (processQueue w) = processQueue w.
Proof.
  remember (processQueue w) as w' eqn:Ew. unfold processQueue in Ew.
  destruct (moveQueue (state w)) as [|nextMove newQueue] eqn:Eq;
    [subst w'; unfold processQueue; now rewrite Eq|].
  destruct (cubeGroup (state w)) as [cg|] eqn:Eg;
    [|subst w'; unfold processQueue; now rewrite Eq, Eg].
  destruct (currentAnimation (state w)) as [cur|] eqn:Ec;
    [subst w'; unfold processQueue; now rewrite Eq, Eg, Ec|].
  destruct (new_CubeAnimation _ _ _ _ _ _) as [[animation g']|] eqn:En; subst w'.
  - unfold processQueue. cbn [state moveQueue cubeGroup currentAnimation].
    rewrite ?Eq, ?Eg. reflexivity.
  - unfold processQueue. cbn [state moveQueue cubeGroup currentAnimation object3DId group].
    rewrite ?Eq, ?Eg, ?Ec, ?En. reflexivity.
Qed.

(** The cubies the constructor detaches and the children it keeps are,
    together, the children the group had, each once. *)
Lemma extraction_partitions (fresh : nat) (g : Group) (ax idx dir : Z) (cb : Callback)
  (this : CubeAnimation) (g1 : Group) :
  well_formed fresh g ->
  (0 <= ax <= 2)%Z ->
  new_CubeAnimation fresh g ax idx dir cb = Some (this, g1) ->
  exists kept : list Object3D,
    children g1 = kept ++ [AGroup fresh]
    /\ Permutation (map object_id (children g)) (map object_id kept ++ detached this)
    /\ NoDup (map object_id kept ++ detached this).
Proof.
  intros Hwf Ha Hnew.
  destruct (commit_spec fresh g ax idx dir cb Ha Hwf)
    as (this' & g1' & Hnew' & _ & _ & _ & _ & Hdet & Hg1 & _).
  rewrite Hnew in Hnew'. injection Hnew' as <- <-.
  exists (fst (scan ax idx (children g))). rewrite Hdet.
  split; [exact Hg1|]. split; [apply scan_ids|].
  exact (Permutation_NoDup (scan_ids ax idx (children g)) (proj1 Hwf)).
Qed.

(** * The move grammar *)

Lemma parse_unknown (move : string) : ~ In move tokens -> parse move = None.
Proof.
  intros H. unfold parse.
  repeat match goal with
  | |- context [String.eqb move ?t] =>
      destruct (String.eqb_spec move t) as [-> | _];
      [ exfalso; apply H; simpl; tauto | ]
  end.
  reflexivity.
Qed.

(** C3.  Each of the twelve tokens parses to its triple of the move
    table, and [performMove] on any other string changes nothing: no move
    is enqueued and the whole world, cube and queue included, is the one
    before the call. *)
Theorem performMove_grammar :
  (parse "U" = Some (moveData 1 1 (-1)) /\ parse "U'" = Some (moveData 1 1 1)
   /\ parse "D" = Some (moveData 1 (-1) 1) /\ parse "D'" = Some (moveData 1 (-1) (-1))
   /\ parse "R" = Some (moveData 0 1 (-1)) /\ parse "R'" = Some (moveData 0 1 1)
   /\ parse "L" = Some (moveData 0 (-1) 1) /\ parse "L'" = Some (moveData 0 (-1) (-1))
   /\ parse "F" = Some (moveData 2 1 (-1)) /\ parse "F'" = Some (moveData 2 1 1)
   /\ parse "B" = Some (moveData 2 (-1) 1) /\ parse "B'" = Some (moveData 2 (-1) (-1)))
  /\ forall (move : string) (w : World),
       ~ In move tokens ->
       parse move = None /\ performMove move w = w /\ step w (PerformMove move) = w.
Proof.
  split.
  - repeat split; reflexivity.
  - intros move w H. pose proof (parse_unknown move H) as Hp.
    split; [exact Hp|]. unfold step, performMove. rewrite Hp.
    split; [reflexivity|]. destruct (crashed w); reflexivity.
Qed.

Lemma performMove_grammar_witness :
  ~ In "M2"%string tokens /\ performMove "M2" initial_world = initial_world.
Proof.
  assert (H : ~ In "M2"%string tokens).
  { simpl. intros H. repeat (destruct H as [H | H]; [discriminate H|]). exact H. }
  split; [exact H|].
  exact (proj1 (proj2 (proj2 performMove_grammar "M2"%string initial_world H))).
Defined.

(** * A finished session *)

(** C10.  After [finish], whatever the session was, [update] reports
    completion and leaves the session as it is, and a second [finish]
    leaves the session and the group as they are and invokes no
    callback. *)
Theorem finished_session_is_inert (this : CubeAnimation) (g : Group) (delta : Q) :
  let '(this', g', _) := finish this g in
  update delta this' = (true, this')
  /\ finish this' g' = (this', g', None).
Proof.
  unfold finish. destruct (rotationGroup this) as [pivot|] eqn:E.
  - destruct (finish_loop _ this pivot g) as [pivot' g1]. simpl.
    split; reflexivity.
  - unfold update. rewrite E. split; reflexivity.
Qed.
